(** * Syntax-highlighting decorator chain of [5_2.cpp]

    A shallow embedding of the renderer classes of [5_2.cpp]
    ([PlainCodeRenderer], [SyntaxHighlighter], [KeywordHighlighter],
    [StringHighlighter], [CommentHighlighter]) and of [convertToHTML],
    followed by the properties of the chain.

    A [std::string] is a list of bytes ([list ascii]).  The [while] loops
    that edit the working copy [highlighted] in place and move the cursor
    [pos] are recursive functions over the pair (working copy, cursor); they
    take a fuel argument and return [None] when it runs out, so that
    termination is a theorem and not an assumption. *)

From Stdlib Require Import Ascii String List Arith Bool Lia.
From stdpp Require Import base option list.

Local Open Scope nat_scope.
Local Open Scope list_scope.

(** ** Strings *)

Abbreviation text := (list ascii).

(** A string literal of the source. *)
Definition lit (s : string) : text := list_ascii_of_string s.

Definition NUL : ascii := "000"%char.
Definition newline : ascii := "010"%char.
Definition dquote : ascii := "034"%char.

(** [isalnum] of <cctype> in the "C" locale: decimal digits and the letters
    of the basic Latin alphabet.  Bytes above 127 (which the source passes as
    negative [char] values) are not alphanumeric in that locale. *)
Definition isalnum (c : ascii) : bool :=
  let n := nat_of_ascii c in
  ((48 <=? n) && (n <=? 57)) || ((65 <=? n) && (n <=? 90))
  || ((97 <=? n) && (n <=? 122)).

(** [s] begins with [needle]. *)
Fixpoint starts_with (needle s : text) : bool :=
  match needle, s with
  | [], _ => true
  | _ :: _, [] => false
  | a :: needle', b :: s' => Ascii.eqb a b && starts_with needle' s'
  end.

(** Offset of the first occurrence of [needle] in [s]. *)
Fixpoint search (needle s : text) : option nat :=
  if starts_with needle s then Some 0
  else match s with
       | [] => None
       | _ :: s' => S <$> search needle s'
       end.

(** [s.find(needle, pos)]: the lowest position [p >= pos] at which [needle]
    occurs in [s]; [None] is [std::string::npos]. *)
Definition find (s needle : text) (pos : nat) : option nat :=
  if pos <=? length s then (fun i => pos + i) <$> search needle (drop pos s)
  else None.

(** [s.find(c, pos)] for a single character. *)
Definition find_char (s : text) (c : ascii) (pos : nat) : option nat :=
  find s [c] pos.

(** [s.substr(pos, n)], for [pos <= s.size()]. *)
Definition substr (s : text) (pos n : nat) : text := take n (drop pos s).

(** [s.replace(pos, n, r)], for [pos <= s.size()]: every call of the source
    passes a position returned by [find] (see [find_bound]). *)
Definition replace (s : text) (pos n : nat) (r : text) : text :=
  take pos s ++ r ++ drop (pos + n) s.

(** [s[i]]; [s[s.size()]] is the terminating zero byte. *)
Definition char_at (s : text) (i : nat) : ascii := nth i s NUL.

(** ** PlainCodeRenderer *)

Definition pre_open : text := lit "<pre style='font-family: monospace;'>".
Definition pre_close : text := lit "</pre>".

Definition PlainCodeRenderer_render (code : text) : text :=
  pre_open ++ code ++ pre_close.

(** ** KeywordHighlighter *)

Record KeywordColor := { keyword : text; color : text }.

Definition keywordsWithColors : list KeywordColor :=
  [ {| keyword := lit "int"; color := lit "blue" |};
    {| keyword := lit "void"; color := lit "blue" |};
    {| keyword := lit "class"; color := lit "purple" |};
    {| keyword := lit "public"; color := lit "purple" |};
    {| keyword := lit "private"; color := lit "purple" |};
    {| keyword := lit "return"; color := lit "darkblue" |};
    {| keyword := lit "if"; color := lit "darkorange" |};
    {| keyword := lit "else"; color := lit "darkorange" |};
    {| keyword := lit "for"; color := lit "darkorange" |};
    {| keyword := lit "while"; color := lit "darkorange" |};
    {| keyword := lit "#include"; color := lit "red" |};
    {| keyword := lit "cout"; color := lit "blue" |};
    {| keyword := lit "string"; color := lit "green" |} ].

Definition span_open (col : text) : text :=
  lit "<span style='color: " ++ col ++ lit ";'>".
Definition span_close : text := lit "</span>".

(** The replacement text of an accepted keyword. *)
Definition keyword_replacement (kw : KeywordColor) : text :=
  span_open (color kw) ++ keyword kw ++ span_close.

(** The condition of the [if] in the keyword loop, at the candidate position
    [pos] of the working copy. *)
Definition whole_word (highlighted : text) (pos klen : nat) : bool :=
  ((pos =? 0) || negb (isalnum (char_at highlighted (pos - 1))))
  && ((pos + klen =? length highlighted)
      || negb (isalnum (char_at highlighted (pos + klen)))).

(** The [while] loop of one rule. *)
Fixpoint keyword_loop (fuel : nat) (kw : KeywordColor)
    (highlighted : text) (pos : nat) : option text :=
  match fuel with
  | 0 => None
  | S fuel' =>
      match find highlighted (keyword kw) pos with
      | None => Some highlighted
      | Some p =>
          if whole_word highlighted p (length (keyword kw)) then
            let replacement := keyword_replacement kw in
            keyword_loop fuel' kw
              (replace highlighted p (length (keyword kw)) replacement)
              (p + length replacement)
          else keyword_loop fuel' kw highlighted (p + length (keyword kw))
      end
  end.

(** One iteration of the [for] loop: the cursor starts at 0. *)
Definition keyword_rule (kw : KeywordColor) (highlighted : text) : option text :=
  keyword_loop (S (length highlighted)) kw highlighted 0.

(** The [for] loop over the rules, in their declared order. *)
Fixpoint keyword_rules (rules : list KeywordColor) (highlighted : text)
    : option text :=
  match rules with
  | [] => Some highlighted
  | kw :: rules' => keyword_rule kw highlighted ≫= keyword_rules rules'
  end.

Definition KeywordHighlighter_transform (code : text) : option text :=
  keyword_rules keywordsWithColors code.

(** ** StringHighlighter *)

Definition string_replacement (original : text) : text :=
  span_open (lit "green") ++ original ++ span_close.

Fixpoint string_loop (fuel : nat) (highlighted : text) (pos : nat)
    : option text :=
  match fuel with
  | 0 => None
  | S fuel' =>
      match find_char highlighted dquote pos with
      | None => Some highlighted
      | Some p =>
          match find_char highlighted dquote (p + 1) with
          | None => Some highlighted
          | Some e =>
              let original := substr highlighted p (e - p + 1) in
              let replacement := string_replacement original in
              string_loop fuel'
                (replace highlighted p (length original) replacement)
                (p + length replacement)
          end
      end
  end.

Definition StringHighlighter_transform (code : text) : option text :=
  string_loop (S (length code)) code 0.

(** ** CommentHighlighter *)

Definition comment_replacement (comment : text) : text :=
  span_open (lit "gray") ++ comment ++ span_close.

Fixpoint comment_loop (fuel : nat) (highlighted : text) (pos : nat)
    : option text :=
  match fuel with
  | 0 => None
  | S fuel' =>
      match find highlighted (lit "//") pos with
      | None => Some highlighted
      | Some p =>
          let e := match find_char highlighted newline p with
                   | Some e => e
                   | None => length highlighted
                   end in
          let comment := substr highlighted p (e - p) in
          let replacement := comment_replacement comment in
          comment_loop fuel'
            (replace highlighted p (length comment) replacement)
            (p + length replacement)
      end
  end.

Definition CommentHighlighter_transform (code : text) : option text :=
  comment_loop (S (length code)) code 0.

(** ** The renderer hierarchy *)

Inductive CodeRenderer :=
  | PlainCodeRenderer
  | SyntaxHighlighter (wrapped : CodeRenderer)
  | KeywordHighlighter (wrapped : CodeRenderer)
  | StringHighlighter (wrapped : CodeRenderer)
  | CommentHighlighter (wrapped : CodeRenderer).

(** The virtual method [render]. *)
Fixpoint render (r : CodeRenderer) (code : text) : option text :=
  match r with
  | PlainCodeRenderer => Some (PlainCodeRenderer_render code)
  | SyntaxHighlighter wrapped => render wrapped code
  | KeywordHighlighter wrapped =>
      KeywordHighlighter_transform code ≫= render wrapped
  | StringHighlighter wrapped =>
      StringHighlighter_transform code ≫= render wrapped
  | CommentHighlighter wrapped =>
      CommentHighlighter_transform code ≫= render wrapped
  end.

(** ** convertToHTML and main *)

Definition escape_char (c : ascii) : text :=
  if Ascii.eqb c "<" then lit "&lt;"
  else if Ascii.eqb c ">" then lit "&gt;"
  else [c].

(** The [for] loop of [convertToHTML], appending to [escapedCode]. *)
Definition escape (code : text) : text :=
  fold_left (fun escapedCode c => escapedCode ++ escape_char c) code [].

(** What [convertToHTML] writes to the standard output. *)
Definition convertToHTML (code : text) (renderer : CodeRenderer) : option text :=
  (fun html => html ++ [newline]) <$> render renderer (escape code).

(** The chain that [main] assembles. *)
Definition main_renderer : CodeRenderer :=
  CommentHighlighter (StringHighlighter (KeywordHighlighter PlainCodeRenderer)).

(** ** Reference definitions for the claims about the keyword scan *)

(** The keyword loop with the cursor advanced by one character, instead of
    the keyword's length, when a candidate is rejected. *)
Fixpoint keyword_loop_step1 (fuel : nat) (kw : KeywordColor)
    (highlighted : text) (pos : nat) : option text :=
  match fuel with
  | 0 => None
  | S fuel' =>
      match find highlighted (keyword kw) pos with
      | None => Some highlighted
      | Some p =>
          if whole_word highlighted p (length (keyword kw)) then
            let replacement := keyword_replacement kw in
            keyword_loop_step1 fuel' kw
              (replace highlighted p (length (keyword kw)) replacement)
              (p + length replacement)
          else keyword_loop_step1 fuel' kw highlighted (p + 1)
      end
  end.

Definition keyword_rule_step1 (kw : KeywordColor) (highlighted : text)
    : option text :=
  keyword_loop_step1 (S (length highlighted)) kw highlighted 0.

Fixpoint keyword_rules_step1 (rules : list KeywordColor) (highlighted : text)
    : option text :=
  match rules with
  | [] => Some highlighted
  | kw :: rules' => keyword_rule_step1 kw highlighted ≫= keyword_rules_step1 rules'
  end.

(** The whole-word test on the two neighbours of an occurrence; a missing
    neighbour passes. *)
Definition not_alnum (c : option ascii) : bool :=
  match c with
  | Some c => negb (isalnum c)
  | None => true
  end.

Definition boundary (before after : option ascii) : bool :=
  not_alnum before && not_alnum after.


(** Whole-word annotation judged on the working copy: as [annotate_input],
    except that the character before an occurrence is the last character
    written so far, which is the end of the replacement when an annotated
    occurrence has just been passed. *)
Fixpoint annotate_working_copy (kw : KeywordColor) (before : option ascii)
    (skip : nat) (s : text) : text :=
  match s with
  | [] => []
  | c :: s' =>
      match skip with
      | S k => annotate_working_copy kw before k s'
      | 0 =>
          if starts_with (keyword kw) s
             && boundary before (s !! length (keyword kw))
          then keyword_replacement kw
                 ++ annotate_working_copy kw (last (keyword_replacement kw))
                      (length (keyword kw) - 1) s'
          else c :: annotate_working_copy kw (Some c) 0 s'
      end
  end.

(** A keyword [k] for which skipping a rejected candidate loses nothing: an
    occurrence that starts [i] characters into another one (which needs
    [drop i k] to be a prefix of [k]) has an alphanumeric character of [k]
    before it. *)
Definition skip_safe (k : text) : bool :=
  forallb (fun i => isalnum (char_at k (i - 1)) || negb (starts_with (drop i k) k))
          (seq 1 (length k - 1)).

Definition rule_ok (kw : KeywordColor) : bool :=
  negb (length (keyword kw) =? 0) && skip_safe (keyword kw).

(** Number of double quotes of a string. *)
Definition quotes (s : text) : nat := count_occ ascii_dec s dquote.

(** Number of positions of [s] at which [needle] occurs. *)
Fixpoint occurrences (needle s : text) : nat :=
  match s with
  | [] => 0
  | _ :: s' => (if starts_with needle s then 1 else 0) + occurrences needle s'
  end.

(** The character-wise image of the escaper. *)
Definition escaped (code : text) : text :=
  flat_map (fun c => if ascii_dec c "<" then lit "&lt;"
                     else if ascii_dec c ">" then lit "&gt;"
                     else [c]) code.

(** The input of the end-to-end scenario. *)
Definition scenario : text :=
  lit "int main() { return 0; // done" ++ [newline] ++ lit " }".

(** Rules and inputs that the statements below refer to. *)
Definition int_rule : KeywordColor :=
  {| keyword := lit "int"; color := lit "blue" |}.
Definition return_rule : KeywordColor :=
  {| keyword := lit "return"; color := lit "darkblue" |}.
Definition else_rule : KeywordColor :=
  {| keyword := lit "else"; color := lit "darkorange" |}.
Definition include_rule : KeywordColor :=
  {| keyword := lit "#include"; color := lit "red" |}.

(** The text [hello \] between two quotes: a literal that ends in an escaped
    quote. *)
Definition hello_literal : text := [dquote] ++ lit "hello \" ++ [dquote].

(** What follows it in the input of the specification's test: [world\] and
    two quotes. *)
Definition world_rest : text := lit "world\" ++ [dquote; dquote].

(** Every piece of markup that a renderer of the source can insert: the
    base block, the closing of a span, and the opening of a span in the
    colour of string literals, of comments and of each keyword rule. *)
Definition markup_chars : text :=
  pre_open ++ pre_close ++ span_close
    ++ span_open (lit "green") ++ span_open (lit "gray")
    ++ flat_map (fun kw => span_open (color kw)) keywordsWithColors.

(** * Properties *)

(** ** The methods on small inputs *)

Example keyword_inside_identifier :
  KeywordHighlighter_transform (lit "integer") = Some (lit "integer").
Proof. reflexivity. Qed.

Example keyword_return_statement :
  KeywordHighlighter_transform (lit "return 0;")
  = Some (keyword_replacement return_rule ++ lit " 0;").
Proof. reflexivity. Qed.

Example string_escaped_quote :
  StringHighlighter_transform (hello_literal ++ world_rest)
  = Some (string_replacement hello_literal ++ lit "world\"
            ++ string_replacement [dquote; dquote]).
Proof. reflexivity. Qed.

Example comment_then_code :
  CommentHighlighter_transform (lit "a // b" ++ [newline] ++ lit "c")
  = Some (lit "a " ++ comment_replacement (lit "// b") ++ [newline] ++ lit "c").
Proof. reflexivity. Qed.

(** ** Searching *)

Section Search.
Implicit Types (needle s t : text) (i j : nat).

Lemma starts_with_app needle t : starts_with needle (needle ++ t) = true.
Proof.
  induction needle as [|a needle IH]; simpl; [done|].
  by rewrite Ascii.eqb_refl, IH.
Qed.

Lemma starts_with_inv needle s :
  starts_with needle s = true -> s = needle ++ drop (length needle) s.
Proof.
  revert s; induction needle as [|a needle IH]; intros [|b s] H;
    simpl in *; try done.
  apply andb_true_iff in H as [Hab H].
  apply Ascii.eqb_eq in Hab as ->. f_equal. by apply IH.
Qed.

Lemma starts_with_length needle s :
  starts_with needle s = true -> length needle <= length s.
Proof.
  intros H%starts_with_inv. rewrite H, length_app. lia.
Qed.

(** A proper suffix of [needle] that is followed by anything and begins
    with [needle] is a prefix of [needle]. *)
Lemma starts_with_overlap needle u t :
  length u <= length needle ->
  starts_with needle (u ++ t) = true -> starts_with u needle = true.
Proof.
  revert needle; induction u as [|c u IH]; intros [|a needle] Hlen H;
    simpl in *; try done; try lia.
  apply andb_true_iff in H as [Hab H]. apply Ascii.eqb_eq in Hab as ->.
  rewrite Ascii.eqb_refl. simpl. apply IH; [lia|done].
Qed.

Lemma search_Some needle s i :
  search needle s = Some i ->
  starts_with needle (drop i s) = true
  /\ i <= length s
  /\ forall j, j < i -> starts_with needle (drop j s) = false.
Proof.
  revert i; induction s as [|c s IH]; intros i; simpl.
  - destruct (starts_with needle []) eqn:E; [|done].
    intros [= <-]. repeat split; [done|lia|intros; lia].
  - destruct (starts_with needle (c :: s)) eqn:E.
    + intros [= <-]. repeat split; [done|lia|intros; lia].
    + destruct (search needle s) as [k|] eqn:Es; [|done].
      intros [= <-]. destruct (IH k eq_refl) as (H1 & H2 & H3).
      repeat split; [done|simpl; lia|].
      intros [|j] Hj; [done|]. simpl. apply H3. lia.
Qed.

Lemma search_None needle s j :
  search needle s = None -> starts_with needle (drop j s) = false.
Proof.
  revert j; induction s as [|c s IH]; intros j; simpl.
  - destruct (starts_with needle []) eqn:E; [done|].
    intros _. by rewrite drop_nil.
  - destruct (starts_with needle (c :: s)) eqn:E; [done|].
    destruct (search needle s) eqn:Es; [done|]. intros _.
    destruct j as [|j]; [done|]. simpl. by apply IH.
Qed.

Lemma search_here needle s :
  starts_with needle s = true -> search needle s = Some 0.
Proof. intros H. destruct s; simpl; by rewrite H. Qed.

(** The shape of a string around the first occurrence of [needle]. *)
Lemma search_split needle s i :
  search needle s = Some i ->
  exists a t, s = a ++ needle ++ t /\ length a = i
            /\ forall j, j < i -> starts_with needle (drop j s) = false.
Proof.
  intros (H1 & H2 & H3)%search_Some.
  exists (take i s), (drop (length needle) (drop i s)).
  split; [|split; [rewrite length_take; lia|done]].
  rewrite <- (starts_with_inv _ _ H1). by rewrite take_drop.
Qed.

Lemma search_first needle a t :
  (forall j, j < length a -> starts_with needle (drop j (a ++ needle ++ t)) = false) ->
  search needle (a ++ needle ++ t) = Some (length a).
Proof.
  induction a as [|c a IH]; intros H.
  - simpl. rewrite search_here; [done|apply starts_with_app].
  - specialize (H 0 ltac:(simpl; lia)) as H0.
    cbn [app search]. cbn [app drop] in H0. rewrite H0.
    rewrite IH; [done|]. intros j Hj. apply (H (S j)). simpl; lia.
Qed.

Lemma find_app d s needle :
  find (d ++ s) needle (length d) = (fun i => length d + i) <$> search needle s.
Proof.
  unfold find. rewrite length_app.
  destruct (Nat.leb_spec (length d) (length d + length s)); [|lia].
  by rewrite drop_app_length.
Qed.

Lemma find_0 s needle : find s needle 0 = search needle s.
Proof.
  unfold find. cbn [Nat.leb]. rewrite drop_0. by destruct (search needle s).
Qed.

(** A position returned by [find] is in range: the calls of [replace],
    [substr] and [operator[]] of the source are all within bounds. *)
Lemma find_bound s needle pos p :
  find s needle pos = Some p -> pos <= p /\ p + length needle <= length s.
Proof.
  unfold find. destruct (Nat.leb_spec pos (length s)); [|done].
  destruct (search needle (drop pos s)) as [i|] eqn:E; [|done].
  intros [= <-]. apply search_Some in E as (H1 & H2 & _).
  apply starts_with_length in H1. rewrite !length_drop in *. lia.
Qed.

Lemma find_substr s needle pos p :
  find s needle pos = Some p -> substr s p (length needle) = needle.
Proof.
  unfold find, substr. destruct (Nat.leb_spec pos (length s)); [|done].
  destruct (search needle (drop pos s)) as [i|] eqn:E; [|done].
  intros [= <-]. apply search_Some in E as (H1 & _).
  rewrite drop_drop in H1. apply starts_with_inv in H1.
  rewrite H1. by rewrite take_app_length.
Qed.
End Search.

(** ** Editing the working copy *)

Section Edit.
Implicit Types (d s t r needle : text).

Lemma replace_app d needle t r :
  replace (d ++ needle ++ t) (length d) (length needle) r = (d ++ r) ++ t.
Proof.
  unfold replace. rewrite take_app_length.
  rewrite <- drop_drop, drop_app_length, drop_app_length.
  by rewrite <- app_assoc.
Qed.

Lemma lookup_after needle t : (needle ++ t) !! length needle = head t.
Proof.
  rewrite lookup_app_r by lia. rewrite Nat.sub_diag. by rewrite head_lookup.
Qed.

(** The test of the keyword loop, read on the text before and after the
    candidate. *)
Lemma whole_word_app d needle t :
  whole_word (d ++ needle ++ t) (length d) (length needle)
  = boundary (last d) (head t).
Proof.
  unfold whole_word, boundary, char_at. f_equal.
  - destruct d as [|x d _] using rev_ind; [done|].
    rewrite last_snoc, length_app. simpl.
    replace (length d + 1 =? 0) with false
      by (symmetry; apply Nat.eqb_neq; lia).
    replace (length d + 1 - 1) with (length d) by lia.
    rewrite nth_lookup, <- app_assoc. cbn [app].
    by rewrite (list_lookup_middle d _ x (length d)).
  - destruct t as [|y t].
    + rewrite app_nil_r, length_app, Nat.eqb_refl. done.
    + replace (length d + length needle =? length (d ++ needle ++ y :: t))
        with false
        by (symmetry; apply Nat.eqb_neq; rewrite !length_app; simpl; lia).
      rewrite nth_lookup, app_assoc.
      rewrite (list_lookup_middle (d ++ needle) t y); [done|].
      by rewrite length_app.
Qed.

(** Wrapping a substring in markup keeps every character of the text, in
    order. *)
Lemma substr_split s p n :
  s = take p s ++ substr s p n ++ drop (p + length (substr s p n)) s.
Proof.
  unfold substr. rewrite <- drop_drop, length_take.
  destruct (Nat.le_ge_cases n (length (drop p s))) as [H|H].
  - rewrite Nat.min_l by done. rewrite (take_drop n), (take_drop p). done.
  - rewrite Nat.min_r by done.
    rewrite (take_ge (drop p s)) by done. rewrite drop_all, app_nil_r.
    by rewrite (take_drop p).
Qed.

(** Wrapping a substring in markup keeps every character of the text, in
    order. *)
Lemma replace_wrap_sublist s p n o c :
  s `sublist_of` replace s p (length (substr s p n)) (o ++ substr s p n ++ c).
Proof.
  unfold replace. rewrite (substr_split s p n) at 1.
  apply sublist_app; [done|].
  rewrite <- !app_assoc. apply sublist_inserts_l.
  apply sublist_app; [done|]. by apply sublist_inserts_l.
Qed.
End Edit.

(** ** The keyword scan *)

Section KeywordScan.
Variable kw : KeywordColor.
Implicit Types (d a s t : text) (before : option ascii).

Lemma last_keyword_replacement :
  last (keyword_replacement kw) = Some ">"%char.
Proof.
  unfold keyword_replacement. by rewrite !last_app.
Qed.

Lemma annotate_wc_skip before a t :
  annotate_working_copy kw before (length a) (a ++ t)
  = annotate_working_copy kw before 0 t.
Proof. induction a as [|c a IH]; simpl; done. Qed.

Lemma annotate_wc_miss before c s :
  starts_with (keyword kw) (c :: s)
    && boundary before ((c :: s) !! length (keyword kw)) = false ->
  annotate_working_copy kw before 0 (c :: s)
  = c :: annotate_working_copy kw (Some c) 0 s.
Proof. intros H. cbn [annotate_working_copy]. by rewrite H. Qed.

Lemma annotate_wc_pass d a s :
  (forall j, j < length a -> starts_with (keyword kw) (drop j (a ++ s)) = false) ->
  annotate_working_copy kw (last d) 0 (a ++ s)
  = a ++ annotate_working_copy kw (last (d ++ a)) 0 s.
Proof.
  revert d; induction a as [|c a IH]; intros d H.
  - by rewrite app_nil_r.
  - cbn [app]. rewrite annotate_wc_miss.
    + f_equal. specialize (IH (d ++ [c])).
      rewrite last_snoc, <- app_assoc in IH. apply IH.
      intros j Hj. apply (H (S j)). simpl; lia.
    + specialize (H 0 ltac:(simpl; lia)). cbn [drop app] in H. by rewrite H.
Qed.

Lemma annotate_wc_none before s :
  (forall j, starts_with (keyword kw) (drop j s) = false) ->
  annotate_working_copy kw before 0 s = s.
Proof.
  revert before; induction s as [|c s IH]; intros before H; [done|].
  rewrite annotate_wc_miss.
  - f_equal. apply IH. intros j. apply (H (S j)).
  - specialize (H 0). cbn [drop] in H. by rewrite H.
Qed.

Section NonEmpty.
Hypothesis nonempty : keyword kw <> [].

Lemma keyword_head :
  exists c, keyword kw = c :: drop 1 (keyword kw).
Proof. destruct (keyword kw) as [|c k]; [done|]. by exists c. Qed.

Lemma keyword_uncons c t :
  keyword kw = c :: drop 1 (keyword kw) ->
  keyword kw ++ t = c :: drop 1 (keyword kw) ++ t.
Proof. intros E. by rewrite E at 1. Qed.

Lemma annotate_wc_accept before t :
  boundary before (head t) = true ->
  annotate_working_copy kw before 0 (keyword kw ++ t)
  = keyword_replacement kw
      ++ annotate_working_copy kw (last (keyword_replacement kw)) 0 t.
Proof.
  intros B. destruct keyword_head as [c E].
  rewrite (keyword_uncons c t E). cbn [annotate_working_copy].
  rewrite <- (keyword_uncons c t E).
  rewrite starts_with_app, lookup_after, B. cbn [andb].
  replace (length (keyword kw) - 1) with (length (drop 1 (keyword kw)))
    by (by rewrite length_drop).
  by rewrite annotate_wc_skip.
Qed.

(** After a rejected candidate, the annotation passes over the rest of
    the candidate without wrapping anything. *)
Lemma annotate_wc_inside t m : forall i,
  skip_safe (keyword kw) = true ->
  i + m = length (keyword kw) -> 1 <= i ->
  annotate_working_copy kw (Some (char_at (keyword kw) (i - 1))) 0
    (drop i (keyword kw) ++ t)
  = drop i (keyword kw) ++ annotate_working_copy kw (last (keyword kw)) 0 t.
Proof.
  induction m as [|m IH]; intros i Hsafe Hi H1.
  - replace i with (length (keyword kw)) by lia.
    rewrite drop_all. cbn [app]. f_equal.
    unfold char_at. rewrite nth_lookup, last_lookup.
    replace (pred (length (keyword kw))) with (length (keyword kw) - 1) by lia.
    destruct (lookup_lt_is_Some_2 (keyword kw) (length (keyword kw) - 1))
      as [x ->]; [lia|done].
  - destruct (lookup_lt_is_Some_2 (keyword kw) i) as [c Hc]; [lia|].
    rewrite (drop_S _ _ _ Hc). cbn [app].
    rewrite annotate_wc_miss.
    + f_equal. specialize (IH (S i) Hsafe ltac:(lia) ltac:(lia)).
      replace (S i - 1) with i in IH by lia.
      unfold char_at in IH at 1. rewrite nth_lookup, Hc in IH. apply IH.
    + unfold skip_safe in Hsafe.
      rewrite forallb_forall in Hsafe.
      specialize (Hsafe i). rewrite in_seq in Hsafe.
      specialize (Hsafe ltac:(lia)).
      apply orb_true_iff in Hsafe as [Ha|Hn].
      * unfold boundary, not_alnum. rewrite Ha. cbn [negb andb].
        apply andb_false_r.
      * apply andb_false_iff. left.
        apply negb_true_iff in Hn.
        destruct (starts_with (keyword kw) (c :: drop (S i) (keyword kw) ++ t))
          eqn:Hst; [|done].
        rewrite <- Hn. symmetry.
        apply (starts_with_overlap _ _ t).
        { rewrite length_drop. lia. }
        by rewrite (drop_S _ _ _ Hc).
Qed.

Lemma annotate_wc_reject before t :
  skip_safe (keyword kw) = true ->
  boundary before (head t) = false ->
  annotate_working_copy kw before 0 (keyword kw ++ t)
  = keyword kw ++ annotate_working_copy kw (last (keyword kw)) 0 t.
Proof.
  intros Hsafe B. destruct keyword_head as [c E].
  pose proof (annotate_wc_inside t (length (keyword kw) - 1) 1 Hsafe) as Hin.
  assert (1 + (length (keyword kw) - 1) = length (keyword kw)) as Hlen
    by (rewrite E; simpl; lia).
  specialize (Hin Hlen ltac:(lia)).
  replace (char_at (keyword kw) (1 - 1)) with c in Hin
    by (rewrite E; done).
  rewrite (keyword_uncons c t E), annotate_wc_miss.
  - by rewrite Hin, (keyword_uncons c _ E).
  - rewrite <- (keyword_uncons c t E), lookup_after, B. apply andb_false_r.
Qed.

(** The loop of the source, started with the cursor after [d], leaves
    [d] as it is and annotates the rest. *)
Lemma keyword_loop_annotate :
  skip_safe (keyword kw) = true ->
  forall fuel d s, length s < fuel ->
  keyword_loop fuel kw (d ++ s) (length d)
  = Some (d ++ annotate_working_copy kw (last d) 0 s).
Proof.
  intros Hsafe. induction fuel as [|fuel IH]; intros d s Hf; [lia|].
  cbn [keyword_loop]. rewrite find_app.
  destruct (search (keyword kw) s) as [i|] eqn:E; cbn [fmap option_fmap option_map].
  - apply search_split in E as (a & t & -> & <- & Hno).
    rewrite (annotate_wc_pass d a _ Hno).
    rewrite (app_assoc d a), <- length_app, whole_word_app.
    destruct keyword_head as [c Ek].
    assert (length t < fuel) as Ht.
    { rewrite !length_app in Hf. rewrite Ek in Hf. simpl in Hf. lia. }
    destruct (boundary (last (d ++ a)) (head t)) eqn:B.
    + rewrite replace_app, <- length_app, (IH _ _ Ht).
      rewrite (annotate_wc_accept _ _ B), last_app.
      rewrite last_keyword_replacement. by rewrite <- !app_assoc.
    + rewrite <- length_app, (app_assoc (d ++ a)), (IH _ _ Ht).
      rewrite (annotate_wc_reject _ _ Hsafe B), last_app.
      destruct (proj2 (last_is_Some (keyword kw)) nonempty) as [x ->].
      by rewrite <- !app_assoc.
  - f_equal. f_equal. symmetry. apply annotate_wc_none.
    intros j. by apply search_None.
Qed.

(** The same for the loop that steps by one character on rejection. *)
Lemma keyword_loop_step1_annotate :
  forall fuel d s, length s < fuel ->
  keyword_loop_step1 fuel kw (d ++ s) (length d)
  = Some (d ++ annotate_working_copy kw (last d) 0 s).
Proof.
  induction fuel as [|fuel IH]; intros d s Hf; [lia|].
  cbn [keyword_loop_step1]. rewrite find_app.
  destruct (search (keyword kw) s) as [i|] eqn:E; cbn [fmap option_fmap option_map].
  - apply search_split in E as (a & t & -> & <- & Hno).
    rewrite (annotate_wc_pass d a _ Hno).
    rewrite (app_assoc d a), <- length_app, whole_word_app.
    destruct keyword_head as [c Ek].
    assert (length t < fuel) as Ht.
    { rewrite !length_app in Hf. rewrite Ek in Hf. simpl in Hf. lia. }
    destruct (boundary (last (d ++ a)) (head t)) eqn:B.
    + rewrite replace_app, <- length_app, (IH _ _ Ht).
      rewrite (annotate_wc_accept _ _ B), last_app.
      rewrite last_keyword_replacement. by rewrite <- !app_assoc.
    + rewrite (keyword_uncons c t Ek).
      rewrite annotate_wc_miss
        by (rewrite <- (keyword_uncons c t Ek), lookup_after, B;
            apply andb_false_r).
      replace (length (d ++ a) + 1) with (length ((d ++ a) ++ [c]))
        by (rewrite !length_app; simpl; lia).
      replace ((d ++ a) ++ c :: drop 1 (keyword kw) ++ t)
        with (((d ++ a) ++ [c]) ++ drop 1 (keyword kw) ++ t)
        by (by rewrite <- !app_assoc).
      rewrite IH, last_snoc; [by rewrite <- !app_assoc|].
      rewrite !length_app in Hf. rewrite Ek in Hf. simpl in Hf.
      rewrite length_app. lia.
  - f_equal. f_equal. symmetry. apply annotate_wc_none.
    intros j. by apply search_None.
Qed.
End NonEmpty.
End KeywordScan.

(** ** Moving the text before the cursor out of the way

    [find], [substr] and [replace] at or after the cursor do not look at the
    text before it. *)

Section Shift.
Implicit Types (d s r needle : text).

Lemma find_shift d s needle pos :
  find (d ++ s) needle (length d + pos)
  = (fun p => length d + p) <$> find s needle pos.
Proof.
  unfold find. rewrite length_app, drop_app_add.
  destruct (Nat.leb_spec pos (length s));
    destruct (Nat.leb_spec (length d + pos) (length d + length s));
    try lia; [|done].
  destruct (search needle (drop pos s)); cbn; [f_equal; lia|done].
Qed.

Lemma substr_shift d s p n : substr (d ++ s) (length d + p) n = substr s p n.
Proof. unfold substr. by rewrite drop_app_add. Qed.

Lemma replace_shift d s p n r :
  replace (d ++ s) (length d + p) n r = d ++ replace s p n r.
Proof.
  unfold replace.
  rewrite take_app_add, <- Nat.add_assoc, drop_app_add.
  by rewrite <- app_assoc.
Qed.

Lemma length_replace s p n r :
  p <= length s ->
  length (replace s p n r) = p + length r + (length s - (p + n)).
Proof.
  intros H. unfold replace.
  rewrite !length_app, length_take, length_drop. lia.
Qed.

Lemma length_substr s p n :
  p + n <= length s -> length (substr s p n) = n.
Proof.
  intros H. unfold substr. rewrite length_take, length_drop. lia.
Qed.

(** The characters before the first occurrence of [c] are not [c]. *)
Lemma no_char_take (c : ascii) s n :
  (forall i, i < n -> starts_with [c] (drop i s) = false) ->
  ~ In c (take n s).
Proof.
  revert n; induction s as [|x s IH]; intros [|n] H; simpl; try tauto.
  intros [->|Hin].
  - specialize (H 0 ltac:(lia)). simpl in H.
    by rewrite Ascii.eqb_refl in H.
  - apply (IH n); [|done]. intros i Hi. apply (H (S i)). lia.
Qed.
End Shift.

(** ** The comment scan *)

Section CommentScan.
Implicit Types (d h s : text).

Lemma comment_loop_S fuel h pos :
  comment_loop (S fuel) h pos =
  match find h (lit "//") pos with
  | None => Some h
  | Some p =>
      let e := match find_char h newline p with
               | Some e => e
               | None => length h
               end in
      let comment := substr h p (e - p) in
      let replacement := comment_replacement comment in
      comment_loop fuel (replace h p (length comment) replacement)
        (p + length replacement)
  end.
Proof. reflexivity. Qed.

(** Where a comment ends, relative to its marker. *)
Lemma comment_end h pos p :
  find h (lit "//") pos = Some p ->
  let e := match find_char h newline p with
           | Some e => e
           | None => length h
           end in
  p < e /\ e <= length h /\ pos <= p.
Proof.
  intros Hp. pose proof (find_bound _ _ _ _ Hp) as [H1 H2].
  pose proof (find_substr _ _ _ _ Hp) as Hs.
  change (length (lit "//")) with 2 in *.
  destruct (find_char h newline p) as [e|] eqn:He; simpl; [|lia].
  unfold find_char in He.
  pose proof (find_bound _ _ _ _ He) as [H3 H4].
  pose proof (find_substr _ _ _ _ He) as Hn.
  simpl in H4. repeat split; [|lia|lia].
  destruct (decide (e = p)) as [->|]; [|lia].
  unfold substr, lit, newline in *.
  destruct (drop p h) as [|x [|y l]]; simpl in *; congruence.
Qed.

Lemma comment_loop_shift fuel : forall d s pos,
  comment_loop fuel (d ++ s) (length d + pos)
  = (fun out => d ++ out) <$> comment_loop fuel s pos.
Proof.
  induction fuel as [|fuel IH]; intros d s pos; [done|].
  rewrite !comment_loop_S, find_shift.
  destruct (find s (lit "//") pos) as [p|]; [|done].
  cbn [fmap option_fmap option_map]. cbv zeta.
  unfold find_char. rewrite find_shift.
  replace (match (fun p0 => length d + p0) <$> find s [newline] p with
           | Some e => e
           | None => length (d ++ s)
           end - (length d + p))
    with (match find s [newline] p with
          | Some e => e
          | None => length s
          end - p)
    by (destruct (find s [newline] p); cbn; rewrite ?length_app; lia).
  rewrite substr_shift, replace_shift, <- Nat.add_assoc. apply IH.
Qed.

Lemma comment_loop_more fuel : forall h pos out,
  comment_loop fuel h pos = Some out ->
  comment_loop (S fuel) h pos = Some out.
Proof.
  induction fuel as [|fuel IH]; intros h pos out; [done|].
  rewrite (comment_loop_S (S fuel)), comment_loop_S.
  destruct (find h (lit "//") pos); [apply IH|done].
Qed.

Lemma comment_loop_total fuel : forall h pos,
  length h - pos < fuel -> is_Some (comment_loop fuel h pos).
Proof.
  induction fuel as [|fuel IH]; intros h pos Hf; [lia|].
  rewrite comment_loop_S.
  destruct (find h (lit "//") pos) as [p|] eqn:Hp; [|done].
  pose proof (comment_end _ _ _ Hp) as (H1 & H2 & H3). cbv zeta in *.
  apply IH. rewrite length_replace by lia.
  rewrite length_substr by lia. lia.
Qed.

Lemma comment_loop_mono fuel fuel' h pos out :
  fuel <= fuel' ->
  comment_loop fuel h pos = Some out -> comment_loop fuel' h pos = Some out.
Proof. induction 1; auto using comment_loop_more. Qed.

(** Any fuel above the length of the text gives the result of the
    method. *)
Lemma comment_loop_fuel fuel h :
  length h < fuel ->
  comment_loop fuel h 0 = CommentHighlighter_transform h.
Proof.
  intros Hf. unfold CommentHighlighter_transform.
  destruct (comment_loop_total (S (length h)) h 0) as [out Hout]; [lia|].
  rewrite Hout. apply (comment_loop_mono (S (length h))); [lia|done].
Qed.

Lemma comment_transform_total h : is_Some (CommentHighlighter_transform h).
Proof. apply comment_loop_total. lia. Qed.

Lemma comment_transform_plain h :
  find h (lit "//") 0 = None -> CommentHighlighter_transform h = Some h.
Proof.
  intros H. unfold CommentHighlighter_transform. by rewrite comment_loop_S, H.
Qed.

(** The method on a text with a marker: the text before the first marker,
    the wrapped comment, and the method's result on the text from the end
    of the comment on. *)
Lemma comment_transform_marker h p :
  find h (lit "//") 0 = Some p ->
  let e := match find_char h newline p with
           | Some e => e
           | None => length h
           end in
  CommentHighlighter_transform h
  = (fun out => take p h ++ comment_replacement (substr h p (e - p)) ++ out)
      <$> CommentHighlighter_transform (drop e h).
Proof.
  intros Hp e. pose proof (comment_end _ _ _ Hp) as (H1 & H2 & _).
  fold e in H1, H2.
  unfold CommentHighlighter_transform at 1.
  rewrite comment_loop_S, Hp. cbv zeta. fold e.
  rewrite length_substr by lia. unfold replace.
  replace (p + (e - p)) with e by lia.
  set (r := comment_replacement (substr h p (e - p))).
  replace (p + length r) with (length (take p h ++ r) + 0)
    by (rewrite length_app, length_take; lia).
  rewrite app_assoc, comment_loop_shift.
  rewrite comment_loop_fuel by (rewrite length_drop; lia).
  destruct (CommentHighlighter_transform (drop e h)); cbn; [|done].
  by rewrite <- app_assoc.
Qed.

(** A text that does not begin with a marker keeps its first character. *)
Lemma comment_transform_head s out :
  starts_with (lit "//") s = false ->
  CommentHighlighter_transform s = Some out -> head out = head s.
Proof.
  intros Hs. destruct (find s (lit "//") 0) as [p|] eqn:Hp.
  - rewrite (comment_transform_marker _ _ Hp).
    intros (o & _ & ->)%fmap_Some.
    pose proof (find_bound _ _ _ _ Hp) as [_ Hb].
    rewrite find_0 in Hp. apply search_Some in Hp as (Hp & _).
    destruct p as [|p]; [rewrite drop_0 in Hp; congruence|].
    by destruct s.
  - rewrite (comment_transform_plain _ Hp). by intros [= <-].
Qed.

(** Loop invariant: the working copy only grows by insertions. *)
Lemma comment_loop_sublist fuel : forall h pos out,
  comment_loop fuel h pos = Some out -> h `sublist_of` out.
Proof.
  induction fuel as [|fuel IH]; intros h pos out; [done|].
  rewrite comment_loop_S.
  destruct (find h (lit "//") pos) as [p|]; [|by intros [= <-]].
  cbv zeta. intros H%IH. etrans; [|exact H].
  apply replace_wrap_sublist.
Qed.
End CommentScan.

(** ** The string-literal scan *)

Section StringScan.
Implicit Types (d h s : text).

Lemma string_loop_S fuel h pos :
  string_loop (S fuel) h pos =
  match find_char h dquote pos with
  | None => Some h
  | Some p =>
      match find_char h dquote (p + 1) with
      | None => Some h
      | Some e =>
          let original := substr h p (e - p + 1) in
          let replacement := string_replacement original in
          string_loop fuel (replace h p (length original) replacement)
            (p + length replacement)
      end
  end.
Proof. reflexivity. Qed.

Lemma string_quotes h pos p e :
  find_char h dquote pos = Some p ->
  find_char h dquote (p + 1) = Some e ->
  pos <= p /\ p < e /\ e < length h.
Proof.
  unfold find_char. intros [H1 H2]%find_bound [H3 H4]%find_bound.
  simpl in *. lia.
Qed.

Lemma string_loop_shift fuel : forall d s pos,
  string_loop fuel (d ++ s) (length d + pos)
  = (fun out => d ++ out) <$> string_loop fuel s pos.
Proof.
  induction fuel as [|fuel IH]; intros d s pos; [done|].
  rewrite !string_loop_S. unfold find_char. rewrite find_shift.
  destruct (find s [dquote] pos) as [p|]; [|done].
  cbn [fmap option_fmap option_map].
  rewrite <- Nat.add_assoc, find_shift.
  destruct (find s [dquote] (p + 1)) as [e|]; [|done].
  cbn [fmap option_fmap option_map]. cbv zeta.
  replace (length d + e - (length d + p) + 1) with (e - p + 1) by lia.
  rewrite substr_shift, replace_shift, <- Nat.add_assoc. apply IH.
Qed.

Lemma string_loop_more fuel : forall h pos out,
  string_loop fuel h pos = Some out ->
  string_loop (S fuel) h pos = Some out.
Proof.
  induction fuel as [|fuel IH]; intros h pos out; [done|].
  rewrite (string_loop_S (S fuel)), string_loop_S.
  destruct (find_char h dquote pos) as [p|]; [|done].
  destruct (find_char h dquote (p + 1)); [apply IH|done].
Qed.

Lemma string_loop_mono fuel fuel' h pos out :
  fuel <= fuel' ->
  string_loop fuel h pos = Some out -> string_loop fuel' h pos = Some out.
Proof. induction 1; auto using string_loop_more. Qed.

Lemma string_loop_total fuel : forall h pos,
  length h - pos < fuel -> is_Some (string_loop fuel h pos).
Proof.
  induction fuel as [|fuel IH]; intros h pos Hf; [lia|].
  rewrite string_loop_S.
  destruct (find_char h dquote pos) as [p|] eqn:Hp; [|done].
  destruct (find_char h dquote (p + 1)) as [e|] eqn:He; [|done].
  pose proof (string_quotes _ _ _ _ Hp He) as (H1 & H2 & H3). cbv zeta.
  apply IH. rewrite length_replace by lia.
  rewrite length_substr by lia. lia.
Qed.

Lemma string_loop_fuel fuel h :
  length h < fuel ->
  string_loop fuel h 0 = StringHighlighter_transform h.
Proof.
  intros Hf. unfold StringHighlighter_transform.
  destruct (string_loop_total (S (length h)) h 0) as [out Hout]; [lia|].
  rewrite Hout. apply (string_loop_mono (S (length h))); [lia|done].
Qed.

Lemma string_transform_total h : is_Some (StringHighlighter_transform h).
Proof. apply string_loop_total. lia. Qed.

Lemma string_transform_plain h :
  find_char h dquote 0 = None -> StringHighlighter_transform h = Some h.
Proof.
  intros H. unfold StringHighlighter_transform. by rewrite string_loop_S, H.
Qed.

Lemma string_transform_open h p :
  find_char h dquote 0 = Some p -> find_char h dquote (p + 1) = None ->
  StringHighlighter_transform h = Some h.
Proof.
  intros Hp He. unfold StringHighlighter_transform.
  by rewrite string_loop_S, Hp, He.
Qed.

(** The method on a text with a pair of quotes: the text before the
    opening quote, the wrapped literal, and the method's result on the
    text after the closing quote. *)
Lemma string_transform_pair h p e :
  find_char h dquote 0 = Some p -> find_char h dquote (p + 1) = Some e ->
  StringHighlighter_transform h
  = (fun out => take p h ++ string_replacement (substr h p (e - p + 1)) ++ out)
      <$> StringHighlighter_transform (drop (e + 1) h).
Proof.
  intros Hp He. pose proof (string_quotes _ _ _ _ Hp He) as (_ & H1 & H2).
  unfold StringHighlighter_transform at 1.
  rewrite string_loop_S, Hp, He. cbv zeta.
  rewrite length_substr by lia. unfold replace.
  replace (p + (e - p + 1)) with (e + 1) by lia.
  set (r := string_replacement (substr h p (e - p + 1))).
  replace (p + length r) with (length (take p h ++ r) + 0)
    by (rewrite length_app, length_take; lia).
  rewrite app_assoc, string_loop_shift.
  rewrite string_loop_fuel by (rewrite length_drop; lia).
  destruct (StringHighlighter_transform (drop (e + 1) h)); cbn; [|done].
  by rewrite <- app_assoc.
Qed.

Lemma string_loop_sublist fuel : forall h pos out,
  string_loop fuel h pos = Some out -> h `sublist_of` out.
Proof.
  induction fuel as [|fuel IH]; intros h pos out; [done|].
  rewrite string_loop_S.
  destruct (find_char h dquote pos) as [p|]; [|by intros [= <-]].
  destruct (find_char h dquote (p + 1)) as [e|]; [|by intros [= <-]].
  cbv zeta. intros H%IH. etrans; [|exact H].
  apply replace_wrap_sublist.
Qed.
End StringScan.

(** ** Searching in a longer text, and counting quotes *)

Section Quotes.
Implicit Types (needle x s t h pre : text).

Lemma starts_with_app_l needle x t :
  length needle <= length x ->
  starts_with needle (x ++ t) = starts_with needle x.
Proof.
  revert x; induction needle as [|a needle IH]; intros [|b x] H;
    simpl in *; try done; try lia.
  f_equal. apply IH. lia.
Qed.

Lemma search_app_l needle x t i :
  search needle x = Some i -> search needle (x ++ t) = Some i.
Proof.
  revert i; induction x as [|c x IH]; intros i; simpl.
  - destruct needle; [|done]. intros [= <-]. by apply search_here.
  - destruct (starts_with needle (c :: x)) eqn:E.
    + intros [= <-]. apply (search_here needle (c :: x ++ t)).
      rewrite <- E. apply (starts_with_app_l needle (c :: x)).
      by apply starts_with_length.
    + destruct (search needle x) as [k|] eqn:Ek; [|done]. intros [= <-].
      pose proof (search_Some _ _ _ Ek) as (Hk%starts_with_length & _).
      rewrite length_drop in Hk.
      replace (starts_with needle (c :: x ++ t)) with false.
      * by rewrite (IH k).
      * rewrite <- E. symmetry. apply (starts_with_app_l needle (c :: x)).
        simpl. lia.
Qed.

Lemma find_app_l s t needle pos p :
  find s needle pos = Some p -> find (s ++ t) needle pos = Some p.
Proof.
  unfold find. destruct (Nat.leb_spec pos (length s)) as [H|]; [|done].
  destruct (search needle (drop pos s)) as [i|] eqn:E; [|done].
  intros [= <-]. rewrite length_app.
  destruct (Nat.leb_spec pos (length s + length t)); [|lia].
  by rewrite drop_app_le, (search_app_l _ _ _ _ E).
Qed.

Lemma search_char_app (c : ascii) x t :
  search [c] x = None ->
  search [c] (x ++ t) = (fun i => length x + i) <$> search [c] t.
Proof.
  induction x as [|b x IH]; simpl.
  - intros _. by destruct (search [c] t).
  - destruct (Ascii.eqb c b); simpl; [done|].
    destruct (search [c] x); [done|]. intros _.
    rewrite IH by done. by destruct (search [c] t).
Qed.

Lemma search_char_count (c : ascii) s :
  match search [c] s with
  | None => count_occ ascii_dec s c = 0
  | Some i => count_occ ascii_dec s c = S (count_occ ascii_dec (drop (S i) s) c)
  end.
Proof.
  induction s as [|b s IH]; simpl; [done|].
  destruct (Ascii.eqb_spec c b) as [->|Hne]; simpl.
  - by destruct (ascii_dec b b).
  - destruct (ascii_dec b c) as [->|]; [done|].
    by destruct (search [c] s).
Qed.

Lemma find_char_quotes h pos :
  pos <= length h ->
  match find_char h dquote pos with
  | None => quotes (drop pos h) = 0
  | Some p => quotes (drop pos h) = S (quotes (drop (p + 1) h))
  end.
Proof.
  intros H. unfold find_char, find, quotes.
  destruct (Nat.leb_spec pos (length h)); [|lia].
  pose proof (search_char_count dquote (drop pos h)) as Hc.
  destruct (search [dquote] (drop pos h)) as [i|]; cbn; [|done].
  rewrite Hc, drop_drop. do 3 f_equal. lia.
Qed.

Lemma string_loop_same_find fuel h pos pos' :
  find_char h dquote pos = find_char h dquote pos' ->
  string_loop fuel h pos = string_loop fuel h pos'.
Proof.
  intros H. destruct fuel; [done|]. by rewrite !string_loop_S, H.
Qed.

(** The method passes over a text without quotes. *)
Lemma string_transform_skip pre s :
  quotes pre = 0 ->
  StringHighlighter_transform (pre ++ s)
  = (fun out => pre ++ out) <$> StringHighlighter_transform s.
Proof.
  intros Hq. unfold StringHighlighter_transform at 1.
  rewrite (string_loop_same_find _ _ 0 (length pre + 0)).
  - rewrite string_loop_shift, string_loop_fuel; [done|].
    rewrite length_app. lia.
  - unfold find_char. rewrite find_shift, !find_0.
    apply search_char_app.
    pose proof (search_char_count dquote pre) as Hc. fold (quotes pre) in Hc.
    destruct (search [dquote] pre); [|done]. lia.
Qed.

(** After an even number of quotes the method starts afresh. *)
Lemma string_transform_even_split n : forall pre s,
  length pre <= n ->
  Nat.even (quotes pre) = true ->
  exists o, StringHighlighter_transform pre = Some o
            /\ StringHighlighter_transform (pre ++ s)
               = (fun out => o ++ out) <$> StringHighlighter_transform s.
Proof.
  induction n as [|n IH]; intros pre s Hn Hev.
  - destruct pre; [|simpl in Hn; lia]. exists []. split; [done|].
    simpl. by destruct (StringHighlighter_transform s).
  - pose proof (find_char_quotes pre 0 ltac:(lia)) as Hq0.
    rewrite drop_0 in Hq0.
    destruct (find_char pre dquote 0) as [p|] eqn:Hp.
    + pose proof (find_bound _ _ _ _ Hp) as [_ Hb]. simpl in Hb.
      pose proof (find_char_quotes pre (p + 1) ltac:(lia)) as Hq1.
      destruct (find_char pre dquote (p + 1)) as [e|] eqn:He.
      * pose proof (string_quotes _ _ _ _ Hp He) as (_ & H1 & H2).
        destruct (IH (drop (e + 1) pre) s) as (o & Ho & Hos).
        { rewrite length_drop. lia. }
        { rewrite Hq0, Hq1 in Hev. exact Hev. }
        exists (take p pre ++ string_replacement (substr pre p (e - p + 1)) ++ o).
        split; [by rewrite (string_transform_pair _ _ _ Hp He), Ho|].
        rewrite (string_transform_pair (pre ++ s) p e)
          by (by apply find_app_l).
        rewrite drop_app_le, Hos by lia.
        rewrite take_app_le by lia.
        unfold substr.
        rewrite (drop_app_le pre) by lia.
        rewrite (take_app_le (drop p pre)) by (rewrite length_drop; lia).
        destruct (StringHighlighter_transform s);
          cbn [fmap option_fmap option_map]; [|done].
        by rewrite <- !app_assoc.
      * rewrite Hq0, Hq1 in Hev. discriminate Hev.
    + exists pre. split; [by apply string_transform_plain|].
      by apply string_transform_skip.
Qed.
End Quotes.

(** ** Whole words on the input and on the working copy *)

Section InputView.
Variable kw : KeywordColor.
Hypothesis nonempty : keyword kw <> [].
Hypothesis first_alnum : isalnum (char_at (keyword kw) 0) = true.



End InputView.

(** ** The rules of the source *)

Section Rules.
Implicit Types (kw : KeywordColor) (h out : text).

Lemma rule_ok_inv kw :
  rule_ok kw = true -> keyword kw <> [] /\ skip_safe (keyword kw) = true.
Proof.
  unfold rule_ok. intros [H1 H2]%andb_true_iff. split; [|done].
  intros E. by rewrite E in H1.
Qed.

(** Every rule of the source has a non-empty keyword that is safe to skip;
    by evaluation. *)
Lemma rules_ok : forallb rule_ok keywordsWithColors = true.
Proof. vm_compute. reflexivity. Qed.

Lemma In_rule_ok kw : In kw keywordsWithColors -> rule_ok kw = true.
Proof. intros H. by apply (proj1 (forallb_forall _ _) rules_ok). Qed.

Lemma keyword_rule_annotate kw h :
  rule_ok kw = true ->
  keyword_rule kw h = Some (annotate_working_copy kw None 0 h).
Proof.
  intros [H1 H2]%rule_ok_inv.
  apply (keyword_loop_annotate kw H1 H2 (S (length h)) [] h). lia.
Qed.

Lemma keyword_rule_step1_annotate kw h :
  rule_ok kw = true ->
  keyword_rule_step1 kw h = Some (annotate_working_copy kw None 0 h).
Proof.
  intros [H1 _]%rule_ok_inv.
  apply (keyword_loop_step1_annotate kw H1 (S (length h)) [] h). lia.
Qed.

Lemma keyword_rules_step1_eq rules : forall h,
  forallb rule_ok rules = true ->
  keyword_rules rules h = keyword_rules_step1 rules h.
Proof.
  induction rules as [|kw rules IH]; intros h; [done|].
  cbn [forallb keyword_rules keyword_rules_step1].
  intros [H1 H2]%andb_true_iff.
  rewrite keyword_rule_annotate, keyword_rule_step1_annotate by done.
  cbn. by apply IH.
Qed.

Lemma keyword_rules_total rules : forall h,
  forallb rule_ok rules = true -> is_Some (keyword_rules rules h).
Proof.
  induction rules as [|kw rules IH]; intros h; [done|].
  cbn [forallb keyword_rules]. intros [H1 H2]%andb_true_iff.
  rewrite keyword_rule_annotate by done. cbn. by apply IH.
Qed.

(** Loop invariant: the working copy only grows by insertions. *)
Lemma keyword_loop_sublist kw fuel : forall h pos out,
  keyword_loop fuel kw h pos = Some out -> h `sublist_of` out.
Proof.
  induction fuel as [|fuel IH]; intros h pos out; [done|].
  cbn [keyword_loop].
  destruct (find h (keyword kw) pos) as [p|] eqn:Hp; [|by intros [= <-]].
  destruct (whole_word h p (length (keyword kw))); [|apply IH].
  intros H%IH. etrans; [|exact H].
  pose proof (replace_wrap_sublist h p (length (keyword kw))
                (span_open (color kw)) span_close) as W.
  by rewrite (find_substr _ _ _ _ Hp) in W.
Qed.

Lemma keyword_rules_sublist rules : forall h out,
  keyword_rules rules h = Some out -> h `sublist_of` out.
Proof.
  induction rules as [|kw rules IH]; intros h out.
  - by intros [= <-].
  - cbn [keyword_rules].
    destruct (keyword_rule kw h) as [h'|] eqn:E; [|done]. cbn.
    intros H%IH. etrans; [|exact H]. by apply keyword_loop_sublist in E.
Qed.

Lemma keyword_transform_total h : is_Some (KeywordHighlighter_transform h).
Proof. apply keyword_rules_total, rules_ok. Qed.
End Rules.

(** ** The escaper *)

Lemma escape_char_cases c :
  escape_char c = if ascii_dec c "<" then lit "&lt;"
                  else if ascii_dec c ">" then lit "&gt;"
                  else [c].
Proof.
  unfold escape_char.
  destruct (Ascii.eqb_spec c "<"), (ascii_dec c "<"); try done.
  destruct (Ascii.eqb_spec c ">"), (ascii_dec c ">"); done.
Qed.

Lemma escape_from (code acc : text) :
  fold_left (fun escapedCode c => escapedCode ++ escape_char c) code acc
  = acc ++ escaped code.
Proof.
  revert acc; induction code as [|c code IH]; intros acc; simpl.
  - by rewrite app_nil_r.
  - rewrite IH, <- app_assoc. by rewrite escape_char_cases.
Qed.

(** The characters from a position up to the next [c] (or up to the end of
    the text when there is none) are not [c]. *)
Lemma find_char_first (h : text) (c : ascii) (pos : nat) :
  pos <= length h ->
  ~ In c (substr h pos (match find_char h c pos with
                        | Some e => e
                        | None => length h
                        end - pos)).
Proof.
  intros H. unfold find_char, find, substr.
  destruct (Nat.leb_spec pos (length h)); [|lia].
  destruct (search [c] (drop pos h)) as [j|] eqn:E; cbn.
  - apply search_Some in E as (_ & _ & E).
    replace (pos + j - pos) with j by lia. by apply no_char_take.
  - apply no_char_take. intros i _. by apply search_None.
Qed.

(** * The claims *)

(** ** C1: order of the transformations in the assembled chain *)

(** C1.  For every input, [render] on the outermost handle of the chain that
    [main] assembles returns a result, and that result is the base wrapping
    of the keyword transformation of the string-literal transformation of
    the comment transformation of the input. *)
Theorem render_chain_order (code : text) :
  exists c s k,
    CommentHighlighter_transform code = Some c
    /\ StringHighlighter_transform c = Some s
    /\ KeywordHighlighter_transform s = Some k
    /\ render main_renderer code = Some (PlainCodeRenderer_render k).
Proof.
  destruct (comment_transform_total code) as [c Hc].
  destruct (string_transform_total c) as [s Hs].
  destruct (keyword_transform_total s) as [k Hk].
  exists c, s, k. repeat split; try done.
  unfold main_renderer. cbn [render].
  rewrite Hc. cbn [mbind option_bind].
  rewrite Hs. cbn [mbind option_bind].
  by rewrite Hk.
Qed.

(** ** C2: whole-word matching of a keyword rule *)




(** ** C3: extent of a comment span *)

(** C3.  When the text has a first marker at [p], and [e] is the position of
    the next newline at or after [p] (the length of the text when there is
    none), the method returns the text before [p], then the opening tag of
    one gray span, the characters from [p] up to but excluding [e], the
    closing tag, and then its own result on the text from [e] on.  The
    wrapped characters begin with the marker and hold no newline, and the
    result for the remaining text begins with the same character as that
    text: the newline stays where it was, outside the span. *)
Theorem comment_wraps_to_end_of_line (h : text) (p : nat) :
  find h (lit "//") 0 = Some p ->
  let e := match find_char h newline p with
           | Some e => e
           | None => length h
           end in
  exists rest,
    CommentHighlighter_transform (drop e h) = Some rest
    /\ head rest = head (drop e h)
    /\ substr h p 2 = lit "//"
    /\ ~ In newline (substr h p (e - p))
    /\ CommentHighlighter_transform h
       = Some (take p h ++ lit "<span style='color: gray;'>"
                 ++ substr h p (e - p) ++ lit "</span>" ++ rest).
Proof.
  intros Hp e.
  change (lit "<span style='color: gray;'>") with (span_open (lit "gray")).
  change (lit "</span>") with span_close.
  pose proof (find_bound _ _ _ _ Hp) as [_ Hb].
  destruct (comment_transform_total (drop e h)) as [rest Hrest].
  exists rest. repeat split; try done.
  - apply comment_transform_head; [|done]. subst e.
    destruct (find_char h newline p) as [e|] eqn:He.
    + apply find_substr in He. unfold substr in He.
      by destruct (drop e h) as [|x l]; [|injection He as ->].
    + by rewrite drop_all.
  - apply (find_substr _ _ _ _ Hp).
  - apply find_char_first. lia.
  - rewrite (comment_transform_marker _ _ Hp). fold e. rewrite Hrest.
    cbn [fmap option_fmap option_map]. unfold comment_replacement.
    by rewrite <- !app_assoc.
Qed.

Lemma comment_wraps_to_end_of_line_witness :
  find (lit "x // c" ++ [newline] ++ lit "y") (lit "//") 0 = Some 2
  /\ exists rest,
       CommentHighlighter_transform ([newline] ++ lit "y") = Some rest
       /\ head rest = Some newline
       /\ substr (lit "x // c" ++ [newline] ++ lit "y") 2 2 = lit "//"
       /\ ~ In newline (lit "// c")
       /\ CommentHighlighter_transform (lit "x // c" ++ [newline] ++ lit "y")
          = Some (lit "x <span style='color: gray;'>// c</span>" ++ rest).
Proof.
  split; [reflexivity|].
  apply (comment_wraps_to_end_of_line
           (lit "x // c" ++ [newline] ++ lit "y") 2).
  reflexivity.
Defined.

(** ** C4: an escaped quote ends the literal *)

(** C4, as stated, fails for an input that holds the text of the
    specification's test after an odd number of quotes.  With one quote in
    front, the quotes pair up differently: the method wraps the first two
    quotes, then the quote after the first backslash together with [world\]
    and the quote after it, and leaves the last quote alone; the span around
    the first quote of the test text, [hello \] and the quote after the
    backslash occurs nowhere in the output. *)
Lemma quote_before_literal_shifts_pairs :
  StringHighlighter_transform (dquote :: hello_literal ++ world_rest)
  = Some (lit "<span style='color: green;'>" ++ [dquote; dquote]
            ++ lit "</span>hello \<span style='color: green;'>"
            ++ [dquote] ++ lit "world\" ++ [dquote] ++ lit "</span>"
            ++ [dquote])
  /\ occurrences
       (lit "<span style='color: green;'>" ++ hello_literal ++ lit "</span>")
       (lit "<span style='color: green;'>" ++ [dquote; dquote]
          ++ lit "</span>hello \<span style='color: green;'>"
          ++ [dquote] ++ lit "world\" ++ [dquote] ++ lit "</span>"
          ++ [dquote])
     = 0.
Proof. split; reflexivity. Qed.

(** C4, amended.  In an input that holds the text of the specification's
    test (a quote, [hello \], a quote, [world\], two quotes) after an even
    number of quotes, the method writes the opening tag of a green span, the
    first quote, [hello \] and the quote after the backslash, and the
    closing tag: the escaped quote ends the literal.  What it returns before
    and after that span is its result on the text before and on the text
    after.  With nothing before and nothing after, this is the input of the
    test itself. *)
Theorem escaped_quote_terminates_literal (pre suf : text) :
  Nat.even (quotes pre) = true ->
  exists o1 o2,
    StringHighlighter_transform pre = Some o1
    /\ StringHighlighter_transform (world_rest ++ suf) = Some o2
    /\ StringHighlighter_transform (pre ++ hello_literal ++ world_rest ++ suf)
       = Some (o1 ++ lit "<span style='color: green;'>" ++ hello_literal
                 ++ lit "</span>" ++ o2).
Proof.
  intros Hev.
  destruct (string_transform_even_split (length pre) pre
              (hello_literal ++ world_rest ++ suf) (le_n _) Hev)
    as (o1 & Ho1 & Hsplit).
  destruct (string_transform_total (world_rest ++ suf)) as [o2 Ho2].
  exists o1, o2. repeat split; try done.
  rewrite Hsplit.
  rewrite (string_transform_pair (hello_literal ++ world_rest ++ suf) 0 8)
    by reflexivity.
  change (drop (8 + 1) (hello_literal ++ world_rest ++ suf))
    with (world_rest ++ suf).
  rewrite Ho2. reflexivity.
Qed.

Lemma escaped_quote_terminates_literal_witness :
  Nat.even (quotes []) = true
  /\ StringHighlighter_transform (hello_literal ++ world_rest)
     = Some (lit "<span style='color: green;'>" ++ hello_literal
               ++ lit "</span>world\<span style='color: green;'>"
               ++ [dquote; dquote] ++ lit "</span>").
Proof.
  split; [reflexivity|].
  destruct (escaped_quote_terminates_literal [] [] eq_refl)
    as (o1 & o2 & H1 & H2 & H3).
  vm_compute in H1. injection H1 as <-.
  vm_compute in H2. injection H2 as <-.
  rewrite app_nil_r in H3. exact H3.
Defined.

(** ** C5: an unterminated literal *)

(** C5.  When a quote comes after an even number of quotes and no quote
    follows it, the method returns a result (it does not fail): its result
    on the text before that quote, followed by the quote and everything
    after it, unchanged. *)
Theorem unterminated_quote_untouched (pre suf : text) :
  Nat.even (quotes pre) = true ->
  quotes suf = 0 ->
  exists o,
    StringHighlighter_transform pre = Some o
    /\ StringHighlighter_transform (pre ++ dquote :: suf)
       = Some (o ++ dquote :: suf).
Proof.
  intros Hev Hsuf.
  destruct (string_transform_even_split (length pre) pre (dquote :: suf)
              (le_n _) Hev) as (o & Ho & Hsplit).
  exists o. split; [done|]. rewrite Hsplit.
  rewrite (string_transform_open (dquote :: suf) 0); [done|reflexivity|].
  unfold find_char, find. cbn [Nat.add Nat.leb length drop].
  destruct (Nat.leb_spec 0 (length suf)); [|lia].
  pose proof (search_char_count dquote suf) as Hc. fold (quotes suf) in Hc.
  rewrite drop_0. destruct (search [dquote] suf); [lia|done].
Qed.

Lemma unterminated_quote_untouched_witness :
  Nat.even (quotes (lit "a = ")) = true
  /\ quotes (lit "open") = 0
  /\ exists o,
       StringHighlighter_transform (lit "a = ") = Some o
       /\ StringHighlighter_transform (lit "a = " ++ dquote :: lit "open")
          = Some (o ++ dquote :: lit "open").
Proof.
  split; [reflexivity|]. split; [reflexivity|].
  apply (unterminated_quote_untouched (lit "a = ") (lit "open"));
    reflexivity.
Defined.

(** ** C6: the end-to-end scenario *)

(** C6.  On the input of the scenario the chain returns the text written
    out below: the base block, opened and closed once, around the input in
    which [int] and [return] stand in their keyword spans and [// done] in
    the comment span, the newline and the rest being kept as they are.
    That output holds three opening and three closing tags of a span, and no
    opening tag in the colour of string literals. *)
Theorem scenario_end_to_end :
  let out :=
    lit "<pre style='font-family: monospace;'><span style='color: blue;'>int</span> main() { <span style='color: darkblue;'>return</span> 0; <span style='color: gray;'>// done</span>"
      ++ [newline] ++ lit " }</pre>" in
  render main_renderer scenario = Some out
  /\ occurrences (lit "<span") out = 3
  /\ occurrences (lit "</span>") out = 3
  /\ occurrences (lit "<span style='color: green;'>") out = 0
  /\ occurrences (lit "<pre style='font-family: monospace;'>") out = 1
  /\ occurrences (lit "<pre") out = 1
  /\ occurrences (lit "</pre>") out = 1.
Proof. vm_compute. repeat split. Qed.

(** ** C7: the empty input *)

(** C7, as stated, fails for the base renderer: on the empty string it
    returns the empty block, which is neither empty nor the input. *)
Lemma plain_renderer_empty_not_empty :
  PlainCodeRenderer_render [] <> []
  /\ render PlainCodeRenderer [] <> Some [].
Proof. split; vm_compute; congruence. Qed.

(** C7, amended.  On the empty string each of the three annotators leaves
    the text empty, and the base renderer returns the empty block; so does
    every handle of the chain, whose result is the base renderer's. *)
Theorem empty_input_stages :
  KeywordHighlighter_transform [] = Some []
  /\ StringHighlighter_transform [] = Some []
  /\ CommentHighlighter_transform [] = Some []
  /\ PlainCodeRenderer_render [] = pre_open ++ pre_close
  /\ render (KeywordHighlighter PlainCodeRenderer) [] = Some (pre_open ++ pre_close)
  /\ render (StringHighlighter (KeywordHighlighter PlainCodeRenderer)) []
     = Some (pre_open ++ pre_close)
  /\ render main_renderer [] = Some (pre_open ++ pre_close).
Proof. vm_compute. repeat split. Qed.

(** ** C8: the escaper *)

(** C8.  The loop of [convertToHTML] builds the character-wise image of its
    input, in which [<] becomes [&lt;], [>] becomes [&gt;] and every other
    character, the ampersand too, is itself; and what [convertToHTML] prints
    is the renderer's result on that escaped text, followed by a newline. *)
Theorem escaper_spec (code : text) (renderer : CodeRenderer) :
  escape code = escaped code
  /\ escaped (lit "a<b>&c") = lit "a&lt;b&gt;&c"
  /\ convertToHTML code renderer
     = (fun html => html ++ [newline]) <$> render renderer (escaped code).
Proof.
  assert (escape code = escaped code) as E by apply (escape_from code []).
  split; [done|]. split; [reflexivity|].
  unfold convertToHTML. by rewrite E.
Qed.

(** ** C9: the annotators only insert markup *)

(** C9.  Each of the three transformations returns a result, of which the
    input is a subsequence (the characters of the input, all of them and in
    their order, with markup inserted between them); the result is at least
    as long as the input. *)
Theorem annotators_only_insert (code : text) :
  (exists out, KeywordHighlighter_transform code = Some out
               /\ code `sublist_of` out /\ length code <= length out)
  /\ (exists out, StringHighlighter_transform code = Some out
                  /\ code `sublist_of` out /\ length code <= length out)
  /\ (exists out, CommentHighlighter_transform code = Some out
                  /\ code `sublist_of` out /\ length code <= length out).
Proof.
  split; [|split].
  - destruct (keyword_transform_total code) as [out H]. exists out.
    split; [done|]. apply keyword_rules_sublist in H.
    split; [done|by apply sublist_length].
  - destruct (string_transform_total code) as [out H]. exists out.
    split; [done|]. apply string_loop_sublist in H.
    split; [done|by apply sublist_length].
  - destruct (comment_transform_total code) as [out H]. exists out.
    split; [done|]. apply comment_loop_sublist in H.
    split; [done|by apply sublist_length].
Qed.

(** ** C10: skipping a rejected candidate *)

(** C10.  For every rule of the source the keyword is safe to skip (an
    occurrence that starts inside another one either cannot exist or has an
    alphanumeric character of the keyword before it), and on every text the
    rule returns a result, the same as the loop that advances by a single
    character after a rejected candidate; hence the whole list of rules and
    its variant return the same result too. *)
Theorem keyword_skip_equals_step1 (kw : KeywordColor) (h : text) :
  In kw keywordsWithColors ->
  skip_safe (keyword kw) = true
  /\ is_Some (keyword_rule kw h)
  /\ keyword_rule kw h = keyword_rule_step1 kw h
  /\ keyword_rules keywordsWithColors h
     = keyword_rules_step1 keywordsWithColors h.
Proof.
  intros Hok%In_rule_ok.
  split; [by apply rule_ok_inv in Hok as [_ ?]|].
  rewrite keyword_rule_annotate, keyword_rule_step1_annotate by done.
  split; [done|]. split; [done|].
  apply keyword_rules_step1_eq, rules_ok.
Qed.

Lemma keyword_skip_equals_step1_witness :
  In else_rule keywordsWithColors
  /\ skip_safe (keyword else_rule) = true
  /\ is_Some (keyword_rule else_rule (lit "elselse else"))
  /\ keyword_rule else_rule (lit "elselse else")
     = keyword_rule_step1 else_rule (lit "elselse else")
  /\ keyword_rules keywordsWithColors (lit "elselse else")
     = keyword_rules_step1 keywordsWithColors (lit "elselse else").
Proof.
  assert (In else_rule keywordsWithColors) as Hin
    by (do 7 right; left; reflexivity).
  split; [exact Hin|].
  apply (keyword_skip_equals_step1 else_rule (lit "elselse else") Hin).
Defined.

(** * Further properties of the renderers *)

(** ** Any chain of decorators *)

(** Every chain, whatever the order of its decorators, returns the base
    block around a text that holds the characters of the input in order. *)
Lemma render_shape (r : CodeRenderer) : forall code,
  exists body, render r code = Some (pre_open ++ body ++ pre_close)
               /\ code `sublist_of` body.
Proof.
  induction r as [|w IH|w IH|w IH|w IH]; intros code; cbn [render].
  - by exists code.
  - apply IH.
  - destruct (keyword_transform_total code) as [k Hk]. rewrite Hk.
    destruct (IH k) as (body & Hb & Hs). exists body. split; [done|].
    etrans; [|exact Hs]. by apply keyword_rules_sublist in Hk.
  - destruct (string_transform_total code) as [k Hk]. rewrite Hk.
    destruct (IH k) as (body & Hb & Hs). exists body. split; [done|].
    etrans; [|exact Hs]. by apply string_loop_sublist in Hk.
  - destruct (comment_transform_total code) as [k Hk]. rewrite Hk.
    destruct (IH k) as (body & Hb & Hs). exists body. split; [done|].
    etrans; [|exact Hs]. by apply comment_loop_sublist in Hk.
Qed.

(** X1.  [render] returns a result on every renderer, however its decorators
    are nested, and on every input: the base block around a body of which
    the input is a subsequence. *)
Theorem render_any_chain (r : CodeRenderer) (code : text) :
  exists body, render r code = Some (pre_open ++ body ++ pre_close)
               /\ code `sublist_of` body
               /\ length code <= length body.
Proof.
  destruct (render_shape r code) as (body & Hb & Hs).
  exists body. split; [done|]. split; [done|by apply sublist_length].
Qed.

(** X2.  [convertToHTML] prints, for every renderer and every input, the
    base block around a body that holds the escaped input as a subsequence,
    and then a newline. *)
Theorem convertToHTML_output (code : text) (renderer : CodeRenderer) :
  exists body,
    convertToHTML code renderer
    = Some (pre_open ++ body ++ pre_close ++ [newline])
    /\ escape code `sublist_of` body.
Proof.
  destruct (render_shape renderer (escape code)) as (body & Hb & Hs).
  exists body. split; [|done].
  unfold convertToHTML. rewrite Hb. cbn [fmap option_fmap option_map].
  by rewrite <- !app_assoc.
Qed.

(** ** Characters that no markup holds *)

Section Counting.
Variable c : ascii.
Implicit Types (h out o cl : text).

Lemma count_replace_wrap h p n o cl :
  count_occ ascii_dec
    (replace h p (length (substr h p n)) (o ++ substr h p n ++ cl)) c
  = count_occ ascii_dec h c + count_occ ascii_dec o c
    + count_occ ascii_dec cl c.
Proof.
  pose proof (substr_split h p n) as E.
  apply (f_equal (fun l => count_occ ascii_dec l c)) in E.
  unfold replace. rewrite !count_occ_app in *. lia.
Qed.

Hypothesis close_free : count_occ ascii_dec span_close c = 0.

Lemma string_loop_count fuel :
  count_occ ascii_dec (span_open (lit "green")) c = 0 ->
  forall h pos out,
  string_loop fuel h pos = Some out ->
  count_occ ascii_dec out c = count_occ ascii_dec h c.
Proof.
  intros Hopen. induction fuel as [|fuel IH]; intros h pos out; [done|].
  rewrite string_loop_S.
  destruct (find_char h dquote pos) as [p|]; [|by intros [= <-]].
  destruct (find_char h dquote (p + 1)) as [e|]; [|by intros [= <-]].
  cbv zeta. intros ->%IH. unfold string_replacement.
  rewrite count_replace_wrap. lia.
Qed.

Lemma comment_loop_count fuel :
  count_occ ascii_dec (span_open (lit "gray")) c = 0 ->
  forall h pos out,
  comment_loop fuel h pos = Some out ->
  count_occ ascii_dec out c = count_occ ascii_dec h c.
Proof.
  intros Hopen. induction fuel as [|fuel IH]; intros h pos out; [done|].
  rewrite comment_loop_S.
  destruct (find h (lit "//") pos) as [p|]; [|by intros [= <-]].
  cbv zeta. intros ->%IH. unfold comment_replacement.
  rewrite count_replace_wrap. lia.
Qed.

Lemma keyword_loop_count kw fuel :
  count_occ ascii_dec (span_open (color kw)) c = 0 ->
  forall h pos out,
  keyword_loop fuel kw h pos = Some out ->
  count_occ ascii_dec out c = count_occ ascii_dec h c.
Proof.
  intros Hopen. induction fuel as [|fuel IH]; intros h pos out; [done|].
  cbn [keyword_loop].
  destruct (find h (keyword kw) pos) as [p|] eqn:Hp; [|by intros [= <-]].
  destruct (whole_word h p (length (keyword kw))); [|apply IH].
  intros ->%IH.
  pose proof (count_replace_wrap h p (length (keyword kw))
                (span_open (color kw)) span_close) as W.
  rewrite (find_substr _ _ _ _ Hp) in W.
  unfold keyword_replacement. rewrite W. lia.
Qed.

Lemma keyword_rules_count rules :
  (forall kw, In kw rules ->
              count_occ ascii_dec (span_open (color kw)) c = 0) ->
  forall h out,
  keyword_rules rules h = Some out ->
  count_occ ascii_dec out c = count_occ ascii_dec h c.
Proof.
  induction rules as [|kw rules IH]; intros Hfree h out.
  - by intros [= <-].
  - cbn [keyword_rules].
    destruct (keyword_rule kw h) as [h'|] eqn:E; [|done]. cbn.
    intros ->%IH.
    + apply (keyword_loop_count kw _ (Hfree kw (or_introl eq_refl)) _ _ _ E).
    + intros kw' Hin. apply Hfree. by right.
Qed.
End Counting.

Lemma markup_chars_free (c : ascii) :
  ~ In c markup_chars ->
  count_occ ascii_dec pre_open c = 0
  /\ count_occ ascii_dec pre_close c = 0
  /\ count_occ ascii_dec span_close c = 0
  /\ count_occ ascii_dec (span_open (lit "green")) c = 0
  /\ count_occ ascii_dec (span_open (lit "gray")) c = 0
  /\ forall kw, In kw keywordsWithColors ->
                count_occ ascii_dec (span_open (color kw)) c = 0.
Proof.
  intros H.
  assert (forall l : text, (In c l -> In c markup_chars) ->
                           count_occ ascii_dec l c = 0) as Hfree.
  { intros l Hl. apply count_occ_not_In. tauto. }
  repeat apply conj; try intros kw Hin; apply Hfree;
    unfold markup_chars; rewrite !in_app_iff; try tauto.
  intros Hc. do 5 right. apply in_flat_map. by exists kw.
Qed.

Lemma render_count (c : ascii) (r : CodeRenderer) :
  ~ In c markup_chars ->
  forall code out,
  render r code = Some out ->
  count_occ ascii_dec out c = count_occ ascii_dec code c.
Proof.
  intros (H1 & H2 & H3 & H4 & H5 & H6)%markup_chars_free.
  induction r as [|w IH|w IH|w IH|w IH]; intros code out; cbn [render].
  - intros [= <-]. unfold PlainCodeRenderer_render.
    rewrite !count_occ_app. lia.
  - apply IH.
  - destruct (KeywordHighlighter_transform code) as [k|] eqn:Hk; [|done].
    cbn. intros ->%IH. by apply (keyword_rules_count c H3 _ H6) in Hk.
  - destruct (StringHighlighter_transform code) as [k|] eqn:Hk; [|done].
    cbn. intros ->%IH. by apply (string_loop_count c H3 _ H4) in Hk.
  - destruct (CommentHighlighter_transform code) as [k|] eqn:Hk; [|done].
    cbn. intros ->%IH. by apply (comment_loop_count c H3 _ H5) in Hk.
Qed.

(** X3.  A character that occurs in no markup of the source (a newline, a
    double quote, a digit, ...) occurs in the output of any chain exactly as
    often as in its input: no renderer adds or removes such a character, so
    that the output has the lines and the quotes of the input. *)
Theorem render_keeps_markup_free_chars
    (r : CodeRenderer) (c : ascii) (code out : text) :
  ~ In c markup_chars ->
  render r code = Some out ->
  count_occ ascii_dec out c = count_occ ascii_dec code c.
Proof. intros Hc. by apply render_count. Qed.

Lemma render_keeps_markup_free_chars_witness :
  ~ In newline markup_chars
  /\ render main_renderer scenario
     = Some (pre_open ++ keyword_replacement int_rule ++ lit " main() { "
               ++ keyword_replacement return_rule ++ lit " 0; "
               ++ comment_replacement (lit "// done") ++ [newline] ++ lit " }"
               ++ pre_close)
  /\ count_occ ascii_dec
       (pre_open ++ keyword_replacement int_rule ++ lit " main() { "
          ++ keyword_replacement return_rule ++ lit " 0; "
          ++ comment_replacement (lit "// done") ++ [newline] ++ lit " }"
          ++ pre_close) newline
     = count_occ ascii_dec scenario newline.
Proof.
  assert (~ In newline markup_chars) as Hc.
  { apply count_occ_not_In with (eq_dec := ascii_dec). reflexivity. }
  assert (render main_renderer scenario
          = Some (pre_open ++ keyword_replacement int_rule ++ lit " main() { "
                    ++ keyword_replacement return_rule ++ lit " 0; "
                    ++ comment_replacement (lit "// done") ++ [newline]
                    ++ lit " }" ++ pre_close)) as Hr by reflexivity.
  split; [exact Hc|]. split; [exact Hr|].
  exact (render_keeps_markup_free_chars main_renderer newline scenario _ Hc Hr).
Defined.

(** ** The escaper *)

Section Escaper.
Implicit Types (code a b : text).

Lemma escape_eq code : escape code = escaped code.
Proof. apply (escape_from code []). Qed.

Lemma escaped_no_angle code :
  ~ In "<"%char (escaped code) /\ ~ In ">"%char (escaped code).
Proof.
  unfold escaped.
  split; intros (x & _ & Hx)%in_flat_map;
    destruct (ascii_dec x "<"); try (cbv in Hx; intuition discriminate);
    destruct (ascii_dec x ">"); try (cbv in Hx; intuition discriminate);
    destruct Hx as [->|[]]; done.
Qed.

Lemma escaped_id code :
  ~ In "<"%char code -> ~ In ">"%char code -> escaped code = code.
Proof.
  induction code as [|c code IH]; [done|]. simpl. intros H1 H2.
  destruct (ascii_dec c "<") as [->|]; [tauto|].
  destruct (ascii_dec c ">") as [->|]; [tauto|].
  simpl. f_equal. apply IH; tauto.
Qed.
End Escaper.

(** X4.  The escaped text holds neither [<] nor [>]: every angle bracket of
    the text that enters the render chain comes from the markup. *)
Theorem escape_no_angle_brackets (code : text) :
  ~ In "<"%char (escape code) /\ ~ In ">"%char (escape code).
Proof. rewrite escape_eq. apply escaped_no_angle. Qed.

(** X5.  The escaper works character by character: the escaped text of a
    concatenation is the concatenation of the escaped texts, and escaping
    never shortens a text. *)
Theorem escape_app (a b : text) :
  escape (a ++ b) = escape a ++ escape b
  /\ length a <= length (escape a).
Proof.
  rewrite !escape_eq. split; [apply flat_map_app|].
  induction a as [|c a IH]; simpl; [lia|].
  rewrite length_app.
  destruct (ascii_dec c "<"); [simpl; lia|].
  destruct (ascii_dec c ">"); simpl; lia.
Qed.

(** X6.  A text without angle brackets is its own escaped text. *)
Theorem escape_without_angle_brackets (code : text) :
  ~ In "<"%char code -> ~ In ">"%char code -> escape code = code.
Proof. intros H1 H2. rewrite escape_eq. by apply escaped_id. Qed.

Lemma escape_without_angle_brackets_witness :
  ~ In "<"%char (lit "a && b")
  /\ ~ In ">"%char (lit "a && b")
  /\ escape (lit "a && b") = lit "a && b".
Proof.
  assert (~ In "<"%char (lit "a && b")) as H1.
  { apply count_occ_not_In with (eq_dec := ascii_dec). reflexivity. }
  assert (~ In ">"%char (lit "a && b")) as H2.
  { apply count_occ_not_In with (eq_dec := ascii_dec). reflexivity. }
  split; [exact H1|]. split; [exact H2|].
  exact (escape_without_angle_brackets (lit "a && b") H1 H2).
Defined.

(** X7.  Escaping twice is escaping once: the ampersand that the escaper
    writes is not escaped again. *)
Theorem escape_idempotent (code : text) :
  escape (escape code) = escape code.
Proof.
  rewrite !escape_eq.
  destruct (escaped_no_angle code) as [H1 H2]. by apply escaped_id.
Qed.

(** X8.  The escaper loses information: since the ampersand is kept as it
    is, a text that already holds [&lt;] and the text that holds [<] in its
    place have the same escaped text, so that no function can undo the
    escaping. *)
Theorem escape_not_injective :
  ~ (forall a b : text, escape a = escape b -> a = b).
Proof.
  intros H. specialize (H (lit "<") (lit "&lt;") eq_refl). discriminate H.
Qed.

(** ** The string-literal method *)

(** X9.  After a text with an even number of quotes the method starts
    afresh: its result on a concatenation is the concatenation of its
    results on the two parts. *)
Theorem string_transform_app (pre s : text) :
  Nat.even (quotes pre) = true ->
  exists o1 o2,
    StringHighlighter_transform pre = Some o1
    /\ StringHighlighter_transform s = Some o2
    /\ StringHighlighter_transform (pre ++ s) = Some (o1 ++ o2).
Proof.
  intros Hev.
  destruct (string_transform_even_split (length pre) pre s (le_n _) Hev)
    as (o1 & Ho1 & Hsplit).
  destruct (string_transform_total s) as [o2 Ho2].
  exists o1, o2. split; [done|]. split; [done|].
  by rewrite Hsplit, Ho2.
Qed.

Lemma string_transform_app_witness :
  Nat.even (quotes (hello_literal ++ lit " + ")) = true
  /\ exists o1 o2,
       StringHighlighter_transform (hello_literal ++ lit " + ") = Some o1
       /\ StringHighlighter_transform (lit "x" ++ [dquote]) = Some o2
       /\ StringHighlighter_transform
            ((hello_literal ++ lit " + ") ++ lit "x" ++ [dquote])
          = Some (o1 ++ o2).
Proof.
  split; [reflexivity|].
  apply (string_transform_app (hello_literal ++ lit " + ")
           (lit "x" ++ [dquote])).
  reflexivity.
Defined.

Lemma string_transform_grows (h : text) (p e : nat) (out : text) :
  find_char h dquote 0 = Some p -> find_char h dquote (p + 1) = Some e ->
  StringHighlighter_transform h = Some out -> length h < length out.
Proof.
  intros Hp He. pose proof (string_quotes _ _ _ _ Hp He) as (_ & H1 & H2).
  rewrite (string_transform_pair _ _ _ Hp He).
  intros (o & Ho & ->)%fmap_Some.
  apply string_loop_sublist, sublist_length in Ho.
  rewrite length_drop in Ho. unfold string_replacement.
  rewrite !length_app, length_take, length_substr by lia.
  change (length span_close) with 7. lia.
Qed.

(** X10.  The method returns its input unchanged exactly when the input
    holds fewer than two quotes. *)
Theorem string_transform_fixed_point (h : text) :
  StringHighlighter_transform h = Some h <-> quotes h < 2.
Proof.
  pose proof (find_char_quotes h 0 ltac:(lia)) as Hq0. rewrite drop_0 in Hq0.
  destruct (find_char h dquote 0) as [p|] eqn:Hp.
  - pose proof (find_bound _ _ _ _ Hp) as [_ Hb]. simpl in Hb.
    pose proof (find_char_quotes h (p + 1) ltac:(lia)) as Hq1.
    destruct (find_char h dquote (p + 1)) as [e|] eqn:He.
    + split; [|lia]. intros H.
      apply (string_transform_grows _ _ _ _ Hp He) in H. lia.
    + split; [lia|]. intros _. by apply (string_transform_open _ p).
  - split; [lia|]. intros _. by apply string_transform_plain.
Qed.

(** ** The comment method *)

Lemma comment_transform_grows (h : text) (p : nat) (out : text) :
  find h (lit "//") 0 = Some p ->
  CommentHighlighter_transform h = Some out -> length h < length out.
Proof.
  intros Hp. pose proof (comment_end _ _ _ Hp) as (H1 & H2 & _).
  cbv zeta in H1, H2.
  rewrite (comment_transform_marker _ _ Hp).
  intros (o & Ho & ->)%fmap_Some.
  apply comment_loop_sublist, sublist_length in Ho.
  rewrite length_drop in Ho. unfold comment_replacement.
  rewrite !length_app, length_take, length_substr by lia.
  change (length span_close) with 7. lia.
Qed.

(** X11.  The method returns its input unchanged exactly when the input
    holds no marker. *)
Theorem comment_transform_fixed_point (h : text) :
  CommentHighlighter_transform h = Some h <-> find h (lit "//") 0 = None.
Proof.
  split; [|apply comment_transform_plain].
  destruct (find h (lit "//") 0) as [p|] eqn:Hp; [|done].
  intros H. apply (comment_transform_grows _ _ _ Hp) in H. lia.
Qed.

Section CommentLines.
Implicit Types (a b h : text).

(** A marker does not extend over a newline. *)
Lemma search_marker_newline a b :
  search (lit "//") a = None ->
  search (lit "//") (a ++ newline :: b)
  = (fun i => length a + 1 + i) <$> search (lit "//") b.
Proof.
  induction a as [|x a IH].
  - intros _. cbn [app length Nat.add search].
    replace (starts_with (lit "//") (newline :: b)) with false by done.
    by destruct (search (lit "//") b).
  - cbn [app search length].
    destruct (starts_with (lit "//") (x :: a)) eqn:E; [done|].
    destruct (search (lit "//") a) eqn:Es; [done|]. intros _.
    replace (starts_with (lit "//") (x :: a ++ newline :: b)) with false.
    + rewrite IH by done. by destruct (search (lit "//") b).
    + destruct a as [|y a].
      * cbn. by rewrite andb_false_r.
      * symmetry. etrans; [|exact E].
        apply (starts_with_app_l (lit "//") (x :: y :: a)). simpl. lia.
Qed.

Lemma comment_loop_same_find fuel h pos pos' :
  find h (lit "//") pos = find h (lit "//") pos' ->
  comment_loop fuel h pos = comment_loop fuel h pos'.
Proof.
  intros H. destruct fuel; [done|]. rewrite !comment_loop_S, H.
  destruct (find h (lit "//") pos'); [|done]. done.
Qed.

(** The method passes over a line without a marker. *)
Lemma comment_transform_skip_line a b :
  search (lit "//") a = None ->
  CommentHighlighter_transform (a ++ newline :: b)
  = (fun out => a ++ newline :: out) <$> CommentHighlighter_transform b.
Proof.
  intros Ha. unfold CommentHighlighter_transform at 1.
  replace (a ++ newline :: b) with ((a ++ [newline]) ++ b)
    by (by rewrite <- app_assoc).
  rewrite (comment_loop_same_find _ _ 0 (length (a ++ [newline]) + 0)).
  - rewrite comment_loop_shift, comment_loop_fuel
      by (rewrite !length_app; simpl; lia).
    destruct (CommentHighlighter_transform b);
      cbn [fmap option_fmap option_map]; [|done].
    by rewrite <- app_assoc.
  - rewrite find_shift, !find_0, <- app_assoc. cbn [app].
    rewrite (search_marker_newline _ _ Ha), length_app.
    by destruct (search (lit "//") b).
Qed.

(** The first newline of [a ++ newline :: b] at or after a position of [a]
    from which [a] has none is the one written out. *)
Lemma find_char_app_none h (c : ascii) p b :
  find_char h c p = None -> p <= length h ->
  find_char (h ++ c :: b) c p = Some (length h).
Proof.
  unfold find_char, find. intros H Hp. rewrite length_app.
  destruct (Nat.leb_spec p (length h)); [|lia].
  destruct (Nat.leb_spec p (length h + length (c :: b))); [|lia].
  destruct (search [c] (drop p h)) eqn:E; [done|].
  rewrite drop_app_le, (search_char_app _ _ _ E) by done.
  cbn [search starts_with]. rewrite Ascii.eqb_refl. cbn.
  rewrite length_drop. f_equal. lia.
Qed.

Lemma comment_transform_lines n : forall a b,
  length a <= n ->
  exists oa, CommentHighlighter_transform a = Some oa
             /\ CommentHighlighter_transform (a ++ newline :: b)
                = (fun ob => oa ++ newline :: ob)
                    <$> CommentHighlighter_transform b.
Proof.
  induction n as [|n IH]; intros a b Hn.
  - destruct a; [|simpl in Hn; lia]. exists []. split; [done|].
    by apply (comment_transform_skip_line []).
  - destruct (find a (lit "//") 0) as [p|] eqn:Hp.
    + pose proof (comment_end _ _ _ Hp) as (H1 & H2 & _).
      pose proof (find_bound _ _ _ _ Hp) as [_ Hb].
      change (length (lit "//")) with 2 in Hb.
      set (e := match find_char a newline p with
                | Some e => e
                | None => length a
                end) in *.
      assert (find_char (a ++ newline :: b) newline p = Some e) as He.
      { subst e. destruct (find_char a newline p) eqn:E.
        - by apply find_app_l.
        - apply find_char_app_none; [done|lia]. }
      destruct (IH (drop e a) b) as (o & Ho & Hob).
      { rewrite length_drop. lia. }
      exists (take p a ++ comment_replacement (substr a p (e - p)) ++ o).
      split.
      * rewrite (comment_transform_marker _ _ Hp). fold e. by rewrite Ho.
      * rewrite (comment_transform_marker (a ++ newline :: b) p)
          by (by apply find_app_l).
        rewrite He, drop_app_le, Hob, take_app_le by lia.
        unfold substr. rewrite (drop_app_le a) by lia.
        rewrite (take_app_le (drop p a)) by (rewrite length_drop; lia).
        destruct (CommentHighlighter_transform b);
          cbn [fmap option_fmap option_map]; [|done].
        by rewrite <- !app_assoc.
    + rewrite find_0 in Hp. exists a.
      split; [by apply comment_transform_plain; rewrite find_0|].
      by apply comment_transform_skip_line.
Qed.
End CommentLines.

(** X12.  The method works line by line: its result on two texts joined by
    a newline is its result on the first, the newline, and its result on
    the second; a comment never runs past the end of its line and nothing
    before a newline changes what is annotated after it. *)
Theorem comment_transform_line_by_line (a b : text) :
  exists oa ob,
    CommentHighlighter_transform a = Some oa
    /\ CommentHighlighter_transform b = Some ob
    /\ CommentHighlighter_transform (a ++ newline :: b)
       = Some (oa ++ newline :: ob).
Proof.
  destruct (comment_transform_lines (length a) a b (le_n _)) as (oa & Ha & Hab).
  destruct (comment_transform_total b) as [ob Hb].
  exists oa, ob. split; [done|]. split; [done|]. by rewrite Hab, Hb.
Qed.

(** ** The keyword method *)

Section KeywordWords.
Implicit Types (kw : KeywordColor) (w s h : text).

(** After an alphanumeric character, nothing of an alphanumeric text is
    annotated. *)
Lemma annotate_alnum_tail kw s : forall c,
  isalnum c = true -> forallb isalnum s = true ->
  annotate_working_copy kw (Some c) 0 s = s.
Proof.
  induction s as [|x s IH]; intros c Hc Hs; [done|].
  cbn [forallb] in Hs. apply andb_true_iff in Hs as [Hx Hs].
  rewrite annotate_wc_miss; [f_equal; by apply IH|].
  unfold boundary, not_alnum. rewrite Hc. cbn [negb andb].
  apply andb_false_r.
Qed.

Lemma annotate_identifier kw w :
  forallb isalnum w = true -> w <> keyword kw ->
  annotate_working_copy kw None 0 w = w.
Proof.
  intros Hw Hne. destruct w as [|c w]; [done|].
  pose proof Hw as Hw'. cbn [forallb] in Hw'.
  apply andb_true_iff in Hw' as [Hc Hs].
  rewrite annotate_wc_miss; [f_equal; by apply annotate_alnum_tail|].
  destruct (starts_with (keyword kw) (c :: w)) eqn:E; [|done].
  cbn [andb]. unfold boundary. cbn [not_alnum andb].
  destruct ((c :: w) !! length (keyword kw)) as [x|] eqn:L.
  - apply list_elem_of_lookup_2, list_elem_of_In in L.
    rewrite forallb_forall in Hw. cbn [not_alnum]. by rewrite (Hw x L).
  - exfalso. apply Hne. apply lookup_ge_None in L.
    apply starts_with_inv in E. rewrite drop_ge in E by done.
    by rewrite app_nil_r in E.
Qed.

Lemma keyword_rules_identifier rules : forall w,
  forallb rule_ok rules = true ->
  forallb isalnum w = true ->
  (forall kw, In kw rules -> w <> keyword kw) ->
  keyword_rules rules w = Some w.
Proof.
  induction rules as [|kw rules IH]; intros w Hok Hw Hne; [done|].
  cbn [forallb] in Hok. apply andb_true_iff in Hok as [Hk Hok].
  cbn [keyword_rules]. rewrite keyword_rule_annotate by done.
  rewrite annotate_identifier; [|done|apply Hne; by left].
  cbn. apply IH; [done|done|]. intros kw' Hin. apply Hne. by right.
Qed.

Lemma keyword_rule_no_occurrence kw h :
  search (keyword kw) h = None -> keyword_rule kw h = Some h.
Proof.
  intros H. unfold keyword_rule. cbn [keyword_loop]. by rewrite find_0, H.
Qed.

Lemma keyword_rules_no_occurrence rules : forall h,
  (forall kw, In kw rules -> search (keyword kw) h = None) ->
  keyword_rules rules h = Some h.
Proof.
  induction rules as [|kw rules IH]; intros h Hno; [done|].
  cbn [keyword_rules].
  rewrite keyword_rule_no_occurrence by (apply Hno; by left).
  cbn. apply IH. intros kw' Hin. apply Hno. by right.
Qed.

Lemma keyword_rules_passes rules : forall h,
  forallb rule_ok rules = true ->
  keyword_rules rules h
  = Some (fold_left (fun h' kw => annotate_working_copy kw None 0 h') rules h).
Proof.
  induction rules as [|kw rules IH]; intros h Hok; [done|].
  cbn [forallb] in Hok. apply andb_true_iff in Hok as [Hk Hok].
  cbn [keyword_rules fold_left]. rewrite keyword_rule_annotate by done.
  cbn. by apply IH.
Qed.
End KeywordWords.

(** X13.  An identifier (a text of alphanumeric characters only) that holds
    a keyword but is not the keyword is returned unchanged by the keyword's
    rule; an identifier that is none of the keywords is returned unchanged
    by the whole method. *)
Theorem keyword_identifier_unchanged (w : text) :
  forallb isalnum w = true ->
  (forall kw, In kw keywordsWithColors -> w <> keyword kw ->
              keyword_rule kw w = Some w)
  /\ ((forall kw, In kw keywordsWithColors -> w <> keyword kw) ->
      KeywordHighlighter_transform w = Some w).
Proof.
  intros Hw. split.
  - intros kw Hok%In_rule_ok Hne. rewrite keyword_rule_annotate by done.
    f_equal. by apply annotate_identifier.
  - intros Hne. apply keyword_rules_identifier; [apply rules_ok|done|done].
Qed.

Lemma keyword_identifier_unchanged_witness :
  forallb isalnum (lit "printf2") = true
  /\ In int_rule keywordsWithColors
  /\ lit "printf2" <> keyword int_rule
  /\ keyword_rule int_rule (lit "printf2") = Some (lit "printf2")
  /\ (forall kw, In kw keywordsWithColors -> lit "printf2" <> keyword kw)
  /\ KeywordHighlighter_transform (lit "printf2") = Some (lit "printf2").
Proof.
  assert (forallb isalnum (lit "printf2") = true) as Hw by reflexivity.
  assert (In int_rule keywordsWithColors) as Hin by (left; reflexivity).
  assert (lit "printf2" <> keyword int_rule) as Hne by discriminate.
  assert (forall kw, In kw keywordsWithColors -> lit "printf2" <> keyword kw)
    as Hall.
  { intros kw Hkw. simpl in Hkw.
    repeat (destruct Hkw as [<-|Hkw]; [discriminate|]). destruct Hkw. }
  destruct (keyword_identifier_unchanged (lit "printf2") Hw) as [H1 H2].
  split; [exact Hw|]. split; [exact Hin|]. split; [exact Hne|].
  split; [exact (H1 int_rule Hin Hne)|]. split; [exact Hall|].
  exact (H2 Hall).
Defined.

(** X14.  A text in which no keyword of the rules occurs at all is returned
    unchanged by the method. *)
Theorem keyword_no_occurrence_unchanged (h : text) :
  (forall kw, In kw keywordsWithColors -> search (keyword kw) h = None) ->
  KeywordHighlighter_transform h = Some h.
Proof. apply keyword_rules_no_occurrence. Qed.

Lemma keyword_no_occurrence_unchanged_witness :
  (forall kw, In kw keywordsWithColors ->
              search (keyword kw) (lit "x = y + 1;") = None)
  /\ KeywordHighlighter_transform (lit "x = y + 1;") = Some (lit "x = y + 1;").
Proof.
  assert (forall kw, In kw keywordsWithColors ->
                     search (keyword kw) (lit "x = y + 1;") = None) as Hno.
  { intros kw Hkw. simpl in Hkw.
    repeat (destruct Hkw as [<-|Hkw]; [reflexivity|]). destruct Hkw. }
  split; [exact Hno|].
  exact (keyword_no_occurrence_unchanged (lit "x = y + 1;") Hno).
Defined.

(** X15.  The method is the composition, in the declared order of the
    rules, of one whole-word annotation of the working copy per rule: each
    rule annotates the text that the rules before it have produced, markup
    included. *)
Theorem keyword_transform_passes (code : text) :
  KeywordHighlighter_transform code
  = Some (fold_left (fun h kw => annotate_working_copy kw None 0 h)
            keywordsWithColors code).
Proof. apply keyword_rules_passes, rules_ok. Qed.

(** X16.  On a text that is exactly the keyword of one of the rules, the
    method returns that keyword in its span: its own rule annotates it, and
    no other rule touches the keyword or the markup around it. *)
Theorem keyword_alone_annotated (kw : KeywordColor) :
  In kw keywordsWithColors ->
  KeywordHighlighter_transform (keyword kw) = Some (keyword_replacement kw).
Proof.
  intros Hkw. simpl in Hkw.
  repeat (destruct Hkw as [<-|Hkw]; [vm_compute; reflexivity|]).
  destruct Hkw.
Qed.

Lemma keyword_alone_annotated_witness :
  In include_rule keywordsWithColors
  /\ KeywordHighlighter_transform (keyword include_rule)
     = Some (keyword_replacement include_rule).
Proof.
  assert (In include_rule keywordsWithColors) as Hin
    by (do 10 right; left; reflexivity).
  split; [exact Hin|]. exact (keyword_alone_annotated include_rule Hin).
Defined.

(** ** The keyword method across a separator *)

Lemma starts_with_across (k x : text) (sep : ascii) (b : text) :
  starts_with k (x ++ sep :: b) = true -> length x < length k -> In sep k.
Proof.
  revert k; induction x as [|y x IH]; intros [|c k] H Hlen;
    simpl in *; try lia.
  - apply andb_true_iff in H as [->%Ascii.eqb_eq _]. by left.
  - apply andb_true_iff in H as [_ H]. right. apply IH; [done|lia].
Qed.

Section Separator.
Variable kw : KeywordColor.
Variable sep : ascii.
Hypothesis nonempty : keyword kw <> [].
Hypothesis sep_not_alnum : isalnum sep = false.
Hypothesis sep_not_in_keyword : ~ In sep (keyword kw).
Implicit Types (a b s : text) (before : option ascii).

Lemma annotate_wc_before p1 p2 s :
  not_alnum p1 = not_alnum p2 ->
  annotate_working_copy kw p1 0 s = annotate_working_copy kw p2 0 s.
Proof.
  intros H. destruct s as [|c s]; [done|].
  cbn [annotate_working_copy]. unfold boundary. by rewrite H.
Qed.

(** The test at a position of [a] does not see what comes after the
    separator. *)
Lemma annotate_test_across before (c : ascii) a b :
  starts_with (keyword kw) (c :: a ++ sep :: b)
    && boundary before ((c :: a ++ sep :: b) !! length (keyword kw))
  = starts_with (keyword kw) (c :: a)
    && boundary before ((c :: a) !! length (keyword kw)).
Proof.
  destruct (Nat.le_gt_cases (length (keyword kw)) (length (c :: a)))
    as [Hle|Hgt].
  - change (c :: a ++ sep :: b) with ((c :: a) ++ sep :: b).
    rewrite (starts_with_app_l (keyword kw) (c :: a) (sep :: b) Hle).
    f_equal. unfold boundary. f_equal.
    destruct (decide (length (keyword kw) = length (c :: a))) as [E|E].
    + rewrite (list_lookup_middle (c :: a) b sep _ E).
      rewrite (lookup_ge_None_2 (c :: a)) by lia.
      cbn [not_alnum]. by rewrite sep_not_alnum.
    + by rewrite (lookup_app_l (c :: a)) by lia.
  - replace (starts_with (keyword kw) (c :: a)) with false.
    + destruct (starts_with (keyword kw) (c :: a ++ sep :: b)) eqn:E; [|done].
      destruct sep_not_in_keyword.
      by apply (starts_with_across _ (c :: a) sep b).
    + destruct (starts_with (keyword kw) (c :: a)) eqn:E; [|done].
      apply starts_with_length in E. lia.
Qed.

Lemma annotate_wc_across b a : forall before skip,
  skip <= length a ->
  annotate_working_copy kw before skip (a ++ sep :: b)
  = annotate_working_copy kw before skip a
      ++ sep :: annotate_working_copy kw None 0 b.
Proof.
  induction a as [|c a IH]; intros before skip Hskip.
  - destruct skip; [|simpl in Hskip; lia]. cbn [app].
    rewrite annotate_wc_miss.
    + cbn [annotate_working_copy app]. f_equal.
      apply annotate_wc_before. cbn [not_alnum]. by rewrite sep_not_alnum.
    + destruct (starts_with (keyword kw) (sep :: b)) eqn:E; [|done].
      destruct sep_not_in_keyword.
      apply (starts_with_across _ [] sep b E).
      destruct (keyword kw); [done|simpl; lia].
  - destruct skip as [|n].
    + cbn [app annotate_working_copy]. rewrite annotate_test_across.
      destruct (starts_with (keyword kw) (c :: a)
                && boundary before ((c :: a) !! length (keyword kw))) eqn:T.
      * apply andb_true_iff in T as [T%starts_with_length _].
        rewrite IH by (simpl in T; lia). by rewrite <- app_assoc.
      * cbn [app]. f_equal. apply IH. lia.
    + cbn [app annotate_working_copy]. apply IH. simpl in Hskip. lia.
Qed.
End Separator.

Lemma keyword_rules_across (sep : ascii) (rules : list KeywordColor) :
  isalnum sep = false ->
  forallb rule_ok rules = true ->
  (forall kw, In kw rules -> ~ In sep (keyword kw)) ->
  forall a b,
  exists oa ob,
    keyword_rules rules a = Some oa
    /\ keyword_rules rules b = Some ob
    /\ keyword_rules rules (a ++ sep :: b) = Some (oa ++ sep :: ob).
Proof.
  intros Hsep. induction rules as [|kw rules IH]; intros Hok Hin a b.
  - by exists a, b.
  - cbn [forallb] in Hok. apply andb_true_iff in Hok as [Hk Hok].
    pose proof (rule_ok_inv _ Hk) as [Hne _].
    cbn [keyword_rules]. rewrite !keyword_rule_annotate by done.
    rewrite (annotate_wc_across kw sep Hne Hsep (Hin kw (or_introl eq_refl)))
      by lia.
    cbn. apply IH; [done|]. intros kw' Hkw'. apply Hin. by right.
Qed.

(** X17.  The keyword method is local to the pieces between separators: at
    a character that is not alphanumeric and occurs in no keyword (a
    newline, a space, a parenthesis, ...), its result on the whole text is
    its result on the text before, the separator, and its result on the
    text after. *)
Theorem keyword_transform_across_separator (sep : ascii) (a b : text) :
  isalnum sep = false ->
  (forall kw, In kw keywordsWithColors -> ~ In sep (keyword kw)) ->
  exists oa ob,
    KeywordHighlighter_transform a = Some oa
    /\ KeywordHighlighter_transform b = Some ob
    /\ KeywordHighlighter_transform (a ++ sep :: b) = Some (oa ++ sep :: ob).
Proof.
  intros Hsep Hin. by apply keyword_rules_across; [|apply rules_ok|].
Qed.

Lemma keyword_transform_across_separator_witness :
  isalnum newline = false
  /\ (forall kw, In kw keywordsWithColors -> ~ In newline (keyword kw))
  /\ exists oa ob,
       KeywordHighlighter_transform (lit "int x;") = Some oa
       /\ KeywordHighlighter_transform (lit "return x;") = Some ob
       /\ KeywordHighlighter_transform
            (lit "int x;" ++ newline :: lit "return x;")
          = Some (oa ++ newline :: ob).
Proof.
  assert (isalnum newline = false) as Hsep by reflexivity.
  assert (forall kw, In kw keywordsWithColors -> ~ In newline (keyword kw))
    as Hin.
  { intros kw Hkw. apply count_occ_not_In with (eq_dec := ascii_dec).
    simpl in Hkw.
    repeat (destruct Hkw as [<-|Hkw]; [reflexivity|]). destruct Hkw. }
  split; [exact Hsep|]. split; [exact Hin|].
  exact (keyword_transform_across_separator newline (lit "int x;")
           (lit "return x;") Hsep Hin).
Defined.
